(** * Graph traversal of SD23039_Lab1.py: breadth-first and depth-first search

    A shallow embedding of the traversal engine of [SD23039_Lab1.py]
    ([LAB1_GRAPH], [get_all_nodes], [breadth_first_search],
    [depth_first_search]) and the properties of its expansion order and of
    its trace.

    Data model.
    - A node identifier is a Python [str]; it is modelled as a [string] of
      bytes (its UTF-8 encoding).  Python compares strings code point by code
      point, which is the byte-wise lexicographic order on the encodings,
      that is [String.le].
    - A graph is a [Dict[str, List[str]]]: a [gmap string (list string)].
      [graph.get(node, [])] is [default [] (g !! node)].
    - The visited set is a Python [set]: a [gset string].  A snapshot stores
      [list(visited)], a copy of the set in an iteration order Python leaves
      unspecified; the copy is kept as the set itself.
    - The [deque] of the breadth-first search and the [list] used as a stack
      by the depth-first search are lists in their storage order: the queue
      is popped on the left, the stack on the right, both are appended to on
      the right. *)

From Equations Require Import Equations.
From stdpp Require Import gmap strings list sorting relations.

Set Warnings "-clear-no-such-hyp".

(** ** Graph definition and utility *)

Definition LAB1_GRAPH : gmap string (list string) :=
  list_to_map
    [ ("A", ["D"; "B"]);
      ("B", ["C"; "E"; "G"]);
      ("C", ["A"]);
      ("D", ["C"]);
      ("E", ["H"]);
      ("F", []);
      ("G", ["F"]);
      ("H", ["G"; "F"]) ].

(** [sorted(l)] and [sorted(l, reverse=True)] on strings. *)
Definition sorted (l : list string) (reverse : bool) : list string :=
  if reverse then merge_sort (flip String.le) l else merge_sort String.le l.

(** [nodes = set(graph.keys()); for neighbors in graph.values():
    nodes.update(neighbors)]. *)
Definition node_set (graph : gmap string (list string)) : gset string :=
  foldl (λ nodes neighbors, nodes ∪ list_to_set neighbors)
        (dom graph) (map_to_list graph).*2.

Definition get_all_nodes (graph : gmap string (list string)) : list string :=
  sorted (elements (node_set graph)) false.

(** [graph.get(node, [])]. *)
Definition graph_get (graph : gmap string (list string)) (node : string)
  : list string :=
  default [] (graph !! node).

(** ** Traversal state and trace *)

(** One entry of [trace]: the dictionary with keys ["expanded"], ["frontier"],
    ["visited"] and ["process_path"]. *)
Module Snapshot.
Record t : Type := Build {
  expanded : string;
  frontier : list string;
  visited : gset string;
  process_path : string
}.
End Snapshot.

(** The local variables of a traversal.  [frontier] is the [queue] of
    [breadth_first_search] and the [stack] of [depth_first_search]. *)
Record state : Type := State {
  expanded_order : list string;
  trace : list Snapshot.t;
  frontier : list string;
  visited : gset string
}.

(** [" → ".join(expanded_order)]. *)
Definition join_path (expanded_order : list string) : string :=
  String.concat " → " expanded_order.

(** The state before the loop: [expanded_order = []], [trace = []], the
    frontier holds [start_node] and [visited = {start_node}]. *)
Definition init (start_node : string) : state :=
  {| expanded_order := [];
     trace := [];
     frontier := [start_node];
     visited := {[ start_node ]} |}.

(** One turn of [for neighbor in neighbors]:
    [if neighbor not in visited: visited.add(neighbor);
    frontier.append(neighbor)]. *)
Definition discover (vf : gset string * list string) (neighbor : string)
  : gset string * list string :=
  if decide (neighbor ∈ vf.1) then vf
  else ({[ neighbor ]} ∪ vf.1, vf.2 ++ [neighbor]).

Definition discover_all (neighbors : list string)
    (visited : gset string) (frontier : list string)
  : gset string * list string :=
  foldl discover (visited, frontier) neighbors.

(** ** Breadth-first search *)

(** The body of [while queue:].  On an empty queue the body is not run. *)
Definition bfs_step (graph : gmap string (list string)) (st : state) : state :=
  match frontier st with
  | [] => st
  | node :: queue =>
      let expanded_order := expanded_order st ++ [node] in
      let snap :=
        {| Snapshot.expanded := node;
           Snapshot.frontier := queue;
           Snapshot.visited := visited st;
           Snapshot.process_path := join_path expanded_order |} in
      let neighbors := sorted (graph_get graph node) false in
      let vq := discover_all neighbors (visited st) queue in
      {| expanded_order := expanded_order;
         trace := trace st ++ [snap];
         frontier := vq.2;
         visited := vq.1 |}
  end.

(** ** Depth-first search *)

(** [stack.pop()]: the last element and the list without it. *)
Definition pop (stack : list string) : option (string * list string) :=
  match reverse stack with
  | [] => None
  | node :: top_first => Some (node, reverse top_first)
  end.

(** The body of [while stack:].  [stack[::-1]] is [reverse stack]. *)
Definition dfs_step (graph : gmap string (list string)) (st : state) : state :=
  match pop (frontier st) with
  | None => st
  | Some (node, stack) =>
      let expanded_order := expanded_order st ++ [node] in
      let snap :=
        {| Snapshot.expanded := node;
           Snapshot.frontier := reverse stack;
           Snapshot.visited := visited st;
           Snapshot.process_path := join_path expanded_order |} in
      let neighbors := sorted (graph_get graph node) true in
      let vs := discover_all neighbors (visited st) stack in
      {| expanded_order := expanded_order;
         trace := trace st ++ [snap];
         frontier := vs.2;
         visited := vs.1 |}
  end.

(** ** The loop [while frontier: body] *)

(** Nodes that can still be discovered, plus nodes waiting in the frontier. *)
Definition measure (graph : gmap string (list string)) (st : state) : nat :=
  size (node_set graph ∖ visited st) + length (frontier st).

Section while_loop.
Variable graph : gmap string (list string).
Variable body : state → state.
Hypothesis body_decreases :
  ∀ st, frontier st ≠ [] → measure graph (body st) < measure graph st.

Equations? while_frontier (st : state) : state
  by wf (measure graph st) lt :=
  while_frontier st with Logic.inspect (frontier st) := {
    | exist _ nil _ => st
    | exist _ (cons _ _) Hfrontier => while_frontier (body st) }.
Proof. apply body_decreases. by rewrite Hfrontier. Qed.
End while_loop.

(** ** Termination of the two loop bodies *)

Lemma elem_of_node_set_fold (x : string) (ls : list (list string))
    (acc : gset string) :
  x ∈ foldl (λ nodes neighbors, nodes ∪ list_to_set neighbors) acc ls
  ↔ x ∈ acc ∨ ∃ l, l ∈ ls ∧ x ∈ l.
Proof.
  revert acc. induction ls as [|l ls IH]; intros acc; simpl.
  - set_solver.
  - rewrite IH. set_unfold. naive_solver.
Qed.

Lemma elem_of_node_set (graph : gmap string (list string)) (x : string) :
  x ∈ node_set graph
  ↔ is_Some (graph !! x) ∨ ∃ k l, graph !! k = Some l ∧ x ∈ l.
Proof.
  unfold node_set. rewrite elem_of_node_set_fold, elem_of_dom.
  apply or_iff_compat_l. split.
  - intros (l & Hl & Hx). apply list_elem_of_fmap in Hl as ([k l'] & -> & Hkl).
    apply elem_of_map_to_list in Hkl. eauto.
  - intros (k & l & Hkl & Hx). exists l. split; [|done].
    apply list_elem_of_fmap. exists (k, l). split; [done|].
    by apply elem_of_map_to_list.
Qed.

Lemma graph_get_node_set (graph : gmap string (list string)) (u v : string) :
  v ∈ graph_get graph u → v ∈ node_set graph.
Proof.
  unfold graph_get. intros Hv. apply elem_of_node_set. right.
  destruct (graph !! u) as [l|] eqn:Hu; simpl in Hv; [eauto|].
  by apply elem_of_nil in Hv.
Qed.

Lemma sorted_Permutation (l : list string) (reverse : bool) :
  sorted l reverse ≡ₚ l.
Proof. destruct reverse; apply merge_sort_Permutation. Qed.

Lemma elem_of_sorted (l : list string) (reverse : bool) (x : string) :
  x ∈ sorted l reverse ↔ x ∈ l.
Proof. by rewrite sorted_Permutation. Qed.

(** What the [for] loop over the neighbours does: the nodes it appends are
    the first occurrences of the neighbours that were not visited yet. *)
Lemma discover_all_spec (neighbors : list string) (visited : gset string)
    (frontier : list string) :
  ∃ new,
    discover_all neighbors visited frontier
      = (list_to_set new ∪ visited, frontier ++ new)
    ∧ NoDup new
    ∧ new `sublist_of` neighbors
    ∧ ∀ x, x ∈ new ↔ x ∈ neighbors ∧ x ∉ visited.
Proof.
  unfold discover_all. revert visited frontier.
  induction neighbors as [|n ns IH]; intros V F; simpl.
  - exists []. split_and!; [f_equal; [set_solver|by rewrite app_nil_r]
                          |constructor|done|set_solver].
  - unfold discover at 2. simpl. destruct (decide (n ∈ V)) as [Hn|Hn].
    + destruct (IH V F) as (new & -> & Hnd & Hsub & Hin).
      exists new. split_and!; [done|done|by constructor|].
      intros x. rewrite Hin. set_solver.
    + destruct (IH ({[n]} ∪ V) (F ++ [n])) as (new & -> & Hnd & Hsub & Hin).
      exists (n :: new). split_and!.
      * f_equal; [set_solver|by rewrite <- app_assoc].
      * constructor; [|done]. rewrite Hin. set_solver.
      * by constructor.
      * intros x. rewrite elem_of_cons, Hin. set_unfold.
        destruct (decide (x = n)); naive_solver.
Qed.

(** One expansion, as both loop bodies perform it: a node leaves the
    frontier, is appended to the expansion order and recorded in a snapshot
    taken at that moment, and its unvisited neighbours [new] are appended to
    the frontier and added to the visited set.  [render] is how the snapshot
    shows what remains of the frontier. *)
Definition expansion (graph : gmap string (list string))
    (render : list string → list string) (st st' : state) : Prop :=
  ∃ node rest new,
    frontier st ≡ₚ node :: rest
    ∧ st' = {| expanded_order := expanded_order st ++ [node];
               trace := trace st ++
                 [ {| Snapshot.expanded := node;
                      Snapshot.frontier := render rest;
                      Snapshot.visited := visited st;
                      Snapshot.process_path :=
                        join_path (expanded_order st ++ [node]) |} ];
               frontier := rest ++ new;
               visited := list_to_set new ∪ visited st |}
    ∧ NoDup new
    ∧ ∀ x, x ∈ new ↔ x ∈ graph_get graph node ∧ x ∉ visited st.

Lemma fresh_nodes_size (U V : gset string) (new : list string) :
  NoDup new → (∀ x, x ∈ new → x ∈ U ∧ x ∉ V) →
  size (U ∖ (list_to_set new ∪ V)) + length new = size (U ∖ V).
Proof.
  intros Hnd. revert V. induction Hnd as [|x new Hx Hnd IH]; intros V Hin.
  - simpl. rewrite Nat.add_0_r. f_equal. set_solver.
  - simpl. destruct (Hin x) as [HxU HxV]; [set_solver|].
    assert (U ∖ ({[x]} ∪ list_to_set new ∪ V)
            = U ∖ (list_to_set new ∪ ({[x]} ∪ V))) as -> by set_solver.
    rewrite Nat.add_succ_r, IH.
    + assert (U ∖ V = {[x]} ∪ U ∖ ({[x]} ∪ V)) as ->.
      { apply set_eq. intros z. set_unfold.
        destruct (decide (z = x)); naive_solver. }
      rewrite (size_union ({[x]} : gset string) (U ∖ ({[x]} ∪ V)))
        by set_solver.
      by rewrite size_singleton.
    + intros z Hz. destruct (Hin z) as [? ?]; [set_solver|].
      split; [done|]. set_unfold. intros [->|?]; done.
Qed.

Lemma expansion_decreases (graph : gmap string (list string))
    (render : list string → list string) (st st' : state) :
  expansion graph render st st' → measure graph st' < measure graph st.
Proof.
  intros (node & rest & new & Hperm & -> & Hnd & Hnew).
  unfold measure. simpl. rewrite Hperm, length_app. simpl.
  pose proof (fresh_nodes_size (node_set graph) (visited st) new Hnd) as Hsz.
  rewrite <- Hsz; [lia|].
  intros x [Hx ?]%Hnew. eauto using graph_get_node_set.
Qed.

Lemma bfs_step_expansion (graph : gmap string (list string)) (st : state) :
  frontier st ≠ [] → expansion graph id st (bfs_step graph st).
Proof.
  intros Hne. unfold bfs_step.
  destruct (frontier st) as [|node queue] eqn:Hfr; [done|].
  destruct (discover_all_spec (sorted (graph_get graph node) false)
              (visited st) queue) as (new & Heq & Hnd & _ & Hnew).
  exists node, queue, new. rewrite Heq. simpl.
  split_and!; [by rewrite Hfr|reflexivity|done|].
  intros x. by rewrite Hnew, elem_of_sorted.
Qed.

Lemma pop_Some (stack : list string) :
  stack ≠ [] → ∃ node rest, stack = rest ++ [node] ∧ pop stack = Some (node, rest).
Proof.
  intros Hne. unfold pop. destruct (reverse stack) as [|node top] eqn:Hrev.
  - apply (f_equal reverse) in Hrev. rewrite reverse_involutive in Hrev. done.
  - exists node, (reverse top). split; [|done].
    apply (f_equal reverse) in Hrev.
    by rewrite reverse_involutive, reverse_cons in Hrev.
Qed.

Lemma pop_snoc (rest : list string) (node : string) :
  pop (rest ++ [node]) = Some (node, rest).
Proof.
  unfold pop. rewrite reverse_app. simpl. by rewrite reverse_involutive.
Qed.

Lemma dfs_step_expansion (graph : gmap string (list string)) (st : state) :
  frontier st ≠ [] → expansion graph reverse st (dfs_step graph st).
Proof.
  intros Hne. unfold dfs_step.
  destruct (pop_Some (frontier st) Hne) as (node & stack & Hfr & ->).
  destruct (discover_all_spec (sorted (graph_get graph node) true)
              (visited st) stack) as (new & Heq & Hnd & _ & Hnew).
  exists node, stack, new. rewrite Heq. simpl.
  split_and!; [|reflexivity|done|].
  - rewrite Hfr. by rewrite Permutation_app_comm.
  - intros x. by rewrite Hnew, elem_of_sorted.
Qed.

Lemma bfs_step_decreases (graph : gmap string (list string)) (st : state) :
  frontier st ≠ [] → measure graph (bfs_step graph st) < measure graph st.
Proof. eauto using expansion_decreases, bfs_step_expansion. Qed.

Lemma dfs_step_decreases (graph : gmap string (list string)) (st : state) :
  frontier st ≠ [] → measure graph (dfs_step graph st) < measure graph st.
Proof. eauto using expansion_decreases, dfs_step_expansion. Qed.

(** ** The two traversals *)

(** The local variables when [while queue:] is left. *)
Definition bfs_final (graph : gmap string (list string)) (start_node : string)
  : state :=
  while_frontier graph (bfs_step graph) (bfs_step_decreases graph)
    (init start_node).

(** [return expanded_order, trace]. *)
Definition breadth_first_search (graph : gmap string (list string))
    (start_node : string) : list string * list Snapshot.t :=
  let st := bfs_final graph start_node in (expanded_order st, trace st).

(** The local variables when [while stack:] is left. *)
Definition dfs_final (graph : gmap string (list string)) (start_node : string)
  : state :=
  while_frontier graph (dfs_step graph) (dfs_step_decreases graph)
    (init start_node).

Definition depth_first_search (graph : gmap string (list string))
    (start_node : string) : list string * list Snapshot.t :=
  let st := dfs_final graph start_node in (expanded_order st, trace st).

(** An edge of the graph, and the nodes reachable from a node. *)
Definition edge (graph : gmap string (list string)) (u v : string) : Prop :=
  v ∈ graph_get graph u.

Definition reachable (graph : gmap string (list string)) : relation string :=
  rtc (edge graph).

(** The neighbours of [node] that are not visited in [st] are [x] and [y]. *)
Definition unvisited_neighbors (graph : gmap string (list string))
    (st : state) (node x y : string) : Prop :=
  ∀ z, (z ∈ graph_get graph node ∧ z ∉ visited st) ↔ (z = x ∨ z = y).

(** The only snapshot of a traversal that starts from a node without
    neighbours. *)
Definition lone_snapshot (start_node : string) : Snapshot.t :=
  {| Snapshot.expanded := start_node;
     Snapshot.frontier := [];
     Snapshot.visited := {[ start_node ]};
     Snapshot.process_path := start_node |}.

(** The first snapshot as the scenario of the specification gives it: taken
    after the neighbours of A were discovered. *)
Definition snapshot_after_neighbors_of_A : Snapshot.t :=
  {| Snapshot.expanded := "A";
     Snapshot.frontier := ["D"; "B"];
     Snapshot.visited := {[ "A"; "D"; "B" ]};
     Snapshot.process_path := "A" |}.

(** The first snapshot as the code records it: taken before the neighbours
    of A are looked at. *)
Definition snapshot_before_neighbors_of_A : Snapshot.t :=
  {| Snapshot.expanded := "A";
     Snapshot.frontier := [];
     Snapshot.visited := {[ "A" ]};
     Snapshot.process_path := "A" |}.

(** The second snapshot of the breadth-first search of the fixture graph
    from A, and of the depth-first search: B is expanded, D waits. *)
Definition second_snapshot_LAB1_A : Snapshot.t :=
  {| Snapshot.expanded := "B";
     Snapshot.frontier := ["D"];
     Snapshot.visited := {[ "A"; "B"; "D" ]};
     Snapshot.process_path := "A → B" |}.

(** ** The loop rule *)

Section while_rules.
Variable graph : gmap string (list string).
Variable body : state → state.
Variable body_decreases :
  ∀ st, frontier st ≠ [] → measure graph (body st) < measure graph st.

#[local] Abbreviation while := (while_frontier graph body body_decreases).

Lemma while_frontier_exit (st : state) : frontier st = [] → while st = st.
Proof.
  intros Hfr. funelim (while_frontier graph body body_decreases st).
  - done.
  - congruence.
Qed.

Lemma while_frontier_turn (st : state) :
  frontier st ≠ [] → while st = while (body st).
Proof.
  intros Hfr. funelim (while_frontier graph body body_decreases st).
  - congruence.
  - done.
Qed.

(** An invariant of the body holds when the loop is left, and the loop is
    left with an empty frontier. *)
Lemma while_frontier_rule (P : state → Prop) :
  (∀ st, frontier st ≠ [] → P st → P (body st)) →
  ∀ st, P st → P (while st) ∧ frontier (while st) = [].
Proof.
  intros Hbody st. remember (measure graph st) as m eqn:Hm. revert st Hm.
  induction m as [m IH] using lt_wf_ind. intros st -> HP.
  destruct (frontier st) as [|node rest] eqn:Hfr.
  - by rewrite while_frontier_exit.
  - assert (frontier st ≠ []) as Hne by congruence.
    rewrite while_frontier_turn by done.
    eapply IH; [by apply body_decreases|done|by apply Hbody].
Qed.

Lemma while_frontier_empty (st : state) : frontier (while st) = [].
Proof. by apply (while_frontier_rule (λ _, True)). Qed.

Hypothesis body_idle : ∀ st, frontier st = [] → body st = st.

Lemma iter_idle (n : nat) (st : state) :
  frontier st = [] → Nat.iter n body st = st.
Proof.
  intros Hfr. induction n as [|n IH]; simpl; [done|].
  by rewrite IH, body_idle.
Qed.

Lemma while_frontier_body (st : state) : while (body st) = while st.
Proof.
  destruct (frontier st) as [|node rest] eqn:Hfr.
  - by rewrite body_idle.
  - rewrite (while_frontier_turn st); [done|congruence].
Qed.

Lemma while_frontier_iter (n : nat) (st : state) :
  while (Nat.iter n body st) = while st.
Proof.
  induction n as [|n IH]; simpl; [done|]. by rewrite while_frontier_body.
Qed.

(** The loop is left after the first turn that finds the frontier empty. *)
Lemma while_frontier_eq_iter (n : nat) (st : state) :
  frontier (Nat.iter n body st) = [] → while st = Nat.iter n body st.
Proof.
  intros Hfr. rewrite <- (while_frontier_iter n). by apply while_frontier_exit.
Qed.

Lemma while_frontier_terminates (st : state) :
  ∃ n, frontier (Nat.iter n body st) = [] ∧ while st = Nat.iter n body st.
Proof.
  destruct (while_frontier_rule
    (λ st', ∃ n, st' = Nat.iter n body st)) with (st := st) as [[n Hn] Hfr].
  - intros st' _ [n ->]. by exists (S n).
  - by exists 0.
  - exists n. by rewrite <- Hn.
Qed.
End while_rules.

Lemma bfs_step_idle (graph : gmap string (list string)) (st : state) :
  frontier st = [] → bfs_step graph st = st.
Proof. intros Hfr. unfold bfs_step. by rewrite Hfr. Qed.

Lemma dfs_step_idle (graph : gmap string (list string)) (st : state) :
  frontier st = [] → dfs_step graph st = st.
Proof. intros Hfr. unfold dfs_step. by rewrite Hfr. Qed.

(** ** The invariant of both traversals *)

Section search_invariant.
Variable graph : gmap string (list string).
Variable start_node : string.

Record search_inv (st : state) : Prop := {
  inv_nodup : NoDup (expanded_order st ++ frontier st);
  inv_visited :
    ∀ x, x ∈ visited st ↔ x ∈ expanded_order st ∨ x ∈ frontier st;
  inv_reachable : ∀ x, x ∈ visited st → reachable graph start_node x;
  inv_closed :
    ∀ u v, u ∈ expanded_order st → edge graph u v → v ∈ visited st;
  inv_start : start_node ∈ visited st;
  inv_trace_expanded : Snapshot.expanded <$> trace st = expanded_order st;
  inv_trace_path :
    ∀ i snap, trace st !! i = Some snap →
      Snapshot.process_path snap = join_path (take (S i) (expanded_order st));
  inv_trace_visited :
    ∀ snap, snap ∈ trace st → Snapshot.visited snap ⊆ visited st;
  inv_trace_mono :
    ∀ i a b, trace st !! i = Some a → trace st !! S i = Some b →
      Snapshot.visited a ⊆ Snapshot.visited b
}.

Lemma search_inv_init : search_inv (init start_node).
Proof.
  split; simpl; try done.
  - apply NoDup_singleton.
  - set_solver.
  - intros x ->%elem_of_singleton. apply rtc_refl.
  - set_solver.
  - set_solver.
  - set_solver.
Qed.

Lemma search_inv_trace_length (st : state) :
  search_inv st → length (trace st) = length (expanded_order st).
Proof. intros [_ _ _ _ _ <- _ _ _]. by rewrite length_fmap. Qed.

Lemma search_inv_expansion (render : list string → list string)
    (st st' : state) :
  search_inv st → expansion graph render st st' → search_inv st'.
Proof.
  intros Hinv (node & rest & new & Hperm & -> & Hnd & Hnew).
  pose proof (search_inv_trace_length st Hinv) as Hlen.
  destruct Hinv as [Hnodup Hvis Hreach Hclosed Hstart Hexp Hpath Htv Hmono].
  assert (∀ x, x ∈ frontier st ↔ x = node ∨ x ∈ rest) as Hfr.
  { intros x. by rewrite Hperm, elem_of_cons. }
  split; simpl.
  - rewrite Hperm in Hnodup.
    assert ((expanded_order st ++ [node]) ++ rest ++ new
            ≡ₚ (expanded_order st ++ node :: rest) ++ new) as ->.
    { by rewrite <- !app_assoc. }
    apply NoDup_app. split_and!; [done| |done].
    intros x Hx [_ Hxv]%Hnew. apply Hxv, Hvis.
    rewrite Hfr. set_solver.
  - intros x. rewrite elem_of_union, elem_of_list_to_set, Hvis, Hfr.
    rewrite !elem_of_app, list_elem_of_singleton. tauto.
  - intros x [Hx%elem_of_list_to_set|Hx]%elem_of_union; [|by apply Hreach].
    apply Hnew in Hx as [Hx _]. eapply rtc_r; [|exact Hx].
    apply Hreach, Hvis. right. apply Hfr. by left.
  - intros u v [Hu| ->%list_elem_of_singleton]%elem_of_app Huv.
    + apply elem_of_union. right. eauto.
    + rewrite elem_of_union, elem_of_list_to_set, Hnew.
      destruct (decide (v ∈ visited st)); auto.
  - set_solver.
  - by rewrite fmap_app, Hexp.
  - intros i snap Hi. apply lookup_app_Some in Hi as [Hi|[Hge Hi]].
    + rewrite (Hpath i snap Hi). apply lookup_lt_Some in Hi.
      rewrite take_app_le by lia. done.
    + apply list_lookup_singleton_Some in Hi as [Hi <-]. simpl.
      rewrite take_ge; [done|]. rewrite length_app. simpl. lia.
  - intros snap [Hs| ->%list_elem_of_singleton]%elem_of_app.
    + specialize (Htv snap Hs). set_solver.
    + simpl. set_solver.
  - intros i a b Ha Hb. apply lookup_app_Some in Hb as [Hb|[Hge Hb]].
    + apply lookup_lt_Some in Hb as Hlt.
      rewrite lookup_app_l in Ha by lia. eauto.
    + apply list_lookup_singleton_Some in Hb as [Hb <-]. simpl.
      rewrite lookup_app_l in Ha by lia.
      apply Htv. eapply list_elem_of_lookup_2, Ha.
Qed.
End search_invariant.

(** ** A run of the loop from the initial state *)

Section search_run.
Variable graph : gmap string (list string).
Variable start_node : string.
Variable body : state → state.
Variable render : list string → list string.
Variable body_decreases :
  ∀ st, frontier st ≠ [] → measure graph (body st) < measure graph st.
Hypothesis body_idle : ∀ st, frontier st = [] → body st = st.
Hypothesis body_expands :
  ∀ st, frontier st ≠ [] → expansion graph render st (body st).

#[local] Abbreviation while := (while_frontier graph body body_decreases).
#[local] Abbreviation at_turn := (λ n, Nat.iter n body (init start_node)).

Lemma turn_inv (n : nat) : search_inv graph start_node (at_turn n).
Proof.
  induction n as [|n IH]; simpl; [apply search_inv_init|].
  destruct (frontier (at_turn n)) as [|node rest] eqn:Hfr.
  - by rewrite body_idle.
  - eapply search_inv_expansion; [exact IH|]. apply body_expands. congruence.
Qed.

Lemma run_inv : search_inv graph start_node (while (init start_node)).
Proof.
  destruct (while_frontier_terminates graph body body_decreases
              (init start_node)) as (n & _ & ->).
  apply turn_inv.
Qed.

(** The loop only appends to the expansion order and to the trace. *)
Lemma while_extends (st : state) :
  trace st `prefix_of` trace (while st)
  ∧ expanded_order st `prefix_of` expanded_order (while st).
Proof.
  apply (while_frontier_rule graph body body_decreases
    (λ st', trace st `prefix_of` trace st'
            ∧ expanded_order st `prefix_of` expanded_order st')); [|done].
  intros st' Hne [Ht Ho].
  destruct (body_expands st' Hne) as (node & rest & new & _ & -> & _).
  simpl. split; by apply prefix_app_r.
Qed.

(** Every node waiting in the frontier is expanded before the loop ends. *)
Lemma while_expands_frontier (st : state) (z : string) :
  z ∈ frontier st → z ∈ expanded_order (while st).
Proof.
  intros Hz.
  destruct (while_frontier_rule graph body body_decreases
    (λ st', z ∈ expanded_order st' ∨ z ∈ frontier st')) with (st := st)
    as [[H|H] Hfr]; [|by right|done|].
  - intros st' Hne Hst'.
    destruct (body_expands st' Hne) as (node & rest & new & Hperm & -> & _).
    simpl. rewrite Hperm in Hst'. set_solver.
  - rewrite Hfr in H. by apply elem_of_nil in H.
Qed.

Lemma turn_trace_length (n : nat) :
  length (trace (at_turn n)) ≤ n
  ∧ (frontier (at_turn n) ≠ [] → length (trace (at_turn n)) = n).
Proof.
  induction n as [|n [IHle IHeq]]; simpl; [split; [lia|done]|].
  destruct (frontier (at_turn n)) as [|node' rest'] eqn:Hfr.
  - rewrite body_idle by done. split; [lia|]. by rewrite Hfr.
  - assert (frontier (at_turn n) ≠ []) as Hne by congruence.
    destruct (body_expands _ Hne) as (node & rest & new & _ & -> & _).
    simpl. rewrite length_app. simpl. rewrite IHeq by done. split; lia.
Qed.

(** The snapshot at index [i] of the returned trace is the one appended by
    turn [i] of the loop, and the expansion order after that turn is the
    first [i + 1] nodes of the returned order. *)
Lemma snapshot_at_turn (i : nat) (snap : Snapshot.t) :
  trace (while (init start_node)) !! i = Some snap →
  frontier (at_turn i) ≠ []
  ∧ trace (body (at_turn i)) = trace (at_turn i) ++ [snap]
  ∧ expanded_order (body (at_turn i))
    = take (S i) (expanded_order (while (init start_node))).
Proof.
  intros Hi.
  assert (frontier (at_turn i) ≠ []) as Hne.
  { intros Hfr.
    rewrite (while_frontier_eq_iter graph body body_decreases body_idle i)
      in Hi by done.
    apply lookup_lt_Some in Hi. pose proof (turn_trace_length i). lia. }
  split; [done|].
  destruct (turn_trace_length i) as [_ Hlen]. specialize (Hlen Hne).
  pose proof (search_inv_trace_length graph start_node _ (turn_inv (S i)))
    as Hlen'.
  destruct (while_extends (body (at_turn i))) as [[kt Ht] [ko Ho]].
  pose proof (while_frontier_iter graph body body_decreases body_idle (S i)
                (init start_node)) as Hw.
  simpl in Hw, Hlen'. rewrite Hw in Ht, Ho.
  destruct (body_expands _ Hne) as (node & rest & new & _ & Heq & _).
  rewrite Heq in Ht, Ho, Hlen' |- *. simpl in *.
  rewrite length_app in Hlen'. simpl in Hlen'.
  rewrite Ht, <- app_assoc in Hi.
  rewrite lookup_app_r, Hlen, Nat.sub_diag in Hi by lia.
  simpl in Hi. injection Hi as <-. split; [done|].
  rewrite Ho. rewrite take_app_length'; [done|]. lia.
Qed.
End search_run.

(** ** The fixture graph, start node A *)

Lemma bfs_final_LAB1_A :
  bfs_final LAB1_GRAPH "A" = Nat.iter 8 (bfs_step LAB1_GRAPH) (init "A").
Proof.
  apply while_frontier_eq_iter; [apply bfs_step_idle|]. by vm_compute.
Qed.

Lemma dfs_final_LAB1_A :
  dfs_final LAB1_GRAPH "A" = Nat.iter 8 (dfs_step LAB1_GRAPH) (init "A").
Proof.
  apply while_frontier_eq_iter; [apply dfs_step_idle|]. by vm_compute.
Qed.

Lemma bfs_trace_LAB1_A :
  (breadth_first_search LAB1_GRAPH "A").2
  = trace (Nat.iter 8 (bfs_step LAB1_GRAPH) (init "A")).
Proof. rewrite <- bfs_final_LAB1_A. reflexivity. Qed.

Lemma dfs_trace_LAB1_A :
  (depth_first_search LAB1_GRAPH "A").2
  = trace (Nat.iter 8 (dfs_step LAB1_GRAPH) (init "A")).
Proof. rewrite <- dfs_final_LAB1_A. reflexivity. Qed.

(** C1, as stated: on the fixture graph from A the breadth-first expansion
    order would be A, D, B, C, E, G, H, F.  It is not: the neighbours D and B
    of A are sorted before they are enqueued. *)
Lemma bfs_LAB1_A_not_adjacency_order :
  (breadth_first_search LAB1_GRAPH "A").1
  ≠ ["A"; "D"; "B"; "C"; "E"; "G"; "H"; "F"].
Proof.
  unfold breadth_first_search. simpl. rewrite bfs_final_LAB1_A.
  vm_compute. discriminate.
Qed.

(** C1, amended: on the fixture graph from A, [breadth_first_search] returns
    the expansion order A, B, D, C, E, G, H, F. *)
Theorem bfs_LAB1_A_order :
  (breadth_first_search LAB1_GRAPH "A").1
  = ["A"; "B"; "D"; "C"; "E"; "G"; "H"; "F"].
Proof.
  unfold breadth_first_search. simpl. rewrite bfs_final_LAB1_A.
  by vm_compute.
Qed.

(** C2, as stated: on the fixture graph from A the depth-first expansion
    order would be A, D, C, B, E, H, G, F.  It is not: B is on top of the
    stack after A is expanded. *)
Lemma dfs_LAB1_A_not_adjacency_order :
  (depth_first_search LAB1_GRAPH "A").1
  ≠ ["A"; "D"; "C"; "B"; "E"; "H"; "G"; "F"].
Proof.
  unfold depth_first_search. simpl. rewrite dfs_final_LAB1_A.
  vm_compute. discriminate.
Qed.

(** C2, amended: on the fixture graph from A, [depth_first_search] returns
    the expansion order A, B, C, E, H, F, G, D. *)
Theorem dfs_LAB1_A_order :
  (depth_first_search LAB1_GRAPH "A").1
  = ["A"; "B"; "C"; "E"; "H"; "F"; "G"; "D"].
Proof.
  unfold depth_first_search. simpl. rewrite dfs_final_LAB1_A.
  by vm_compute.
Qed.

(** C3, as stated: the first snapshot of either traversal from A would show
    the frontier D, B and the visited set A, D, B.  Neither does. *)
Lemma first_snapshot_LAB1_A_not_after_neighbors :
  head (breadth_first_search LAB1_GRAPH "A").2
    ≠ Some snapshot_after_neighbors_of_A
  ∧ head (depth_first_search LAB1_GRAPH "A").2
    ≠ Some snapshot_after_neighbors_of_A.
Proof.
  rewrite bfs_trace_LAB1_A, dfs_trace_LAB1_A.
  split; intros H; apply (f_equal (fmap Snapshot.frontier)) in H;
    vm_compute in H; discriminate.
Qed.

(** C3, amended: on the fixture graph from A, the first snapshot of
    [breadth_first_search] and the first snapshot of [depth_first_search]
    both have expanded node A, an empty frontier, the visited set holding
    only A, and the process path "A". *)
Theorem first_snapshot_LAB1_A :
  head (breadth_first_search LAB1_GRAPH "A").2
    = Some snapshot_before_neighbors_of_A
  ∧ head (depth_first_search LAB1_GRAPH "A").2
    = Some snapshot_before_neighbors_of_A.
Proof.
  rewrite bfs_trace_LAB1_A, dfs_trace_LAB1_A.
  split; vm_compute; reflexivity.
Qed.

(** [ALL_NODES]: every node of the fixture graph is a key. *)
Example get_all_nodes_LAB1 :
  get_all_nodes LAB1_GRAPH = ["A"; "B"; "C"; "D"; "E"; "F"; "G"; "H"].
Proof. by vm_compute. Qed.

(** Repeated neighbours and self-loops: each node is expanded once. *)
Example bfs_repeated_neighbors :
  (breadth_first_search
     (list_to_map [("A", ["B"; "A"; "B"]); ("B", ["B"; "A"])]) "A").1
  = ["A"; "B"].
Proof.
  unfold breadth_first_search, bfs_final.
  rewrite (while_frontier_eq_iter _ _ _ (bfs_step_idle _) 2);
    by vm_compute.
Qed.

Example dfs_repeated_neighbors :
  (depth_first_search
     (list_to_map [("A", ["B"; "A"; "B"]); ("B", ["B"; "A"])]) "A").1
  = ["A"; "B"].
Proof.
  unfold depth_first_search, dfs_final.
  rewrite (while_frontier_eq_iter _ _ _ (dfs_step_idle _) 2);
    by vm_compute.
Qed.

(** ** Both traversals, on every graph *)

Lemma bfs_turn_inv (graph : gmap string (list string)) (start_node : string)
    (n : nat) :
  search_inv graph start_node (Nat.iter n (bfs_step graph) (init start_node)).
Proof.
  apply (turn_inv _ _ _ id); [apply bfs_step_idle|apply bfs_step_expansion].
Qed.

Lemma dfs_turn_inv (graph : gmap string (list string)) (start_node : string)
    (n : nat) :
  search_inv graph start_node (Nat.iter n (dfs_step graph) (init start_node)).
Proof.
  apply (turn_inv _ _ _ reverse);
    [apply dfs_step_idle|apply dfs_step_expansion].
Qed.

Lemma bfs_final_inv (graph : gmap string (list string)) (start_node : string) :
  search_inv graph start_node (bfs_final graph start_node).
Proof.
  apply (run_inv _ _ _ id); [apply bfs_step_idle|apply bfs_step_expansion].
Qed.

Lemma dfs_final_inv (graph : gmap string (list string)) (start_node : string) :
  search_inv graph start_node (dfs_final graph start_node).
Proof.
  apply (run_inv _ _ _ reverse);
    [apply dfs_step_idle|apply dfs_step_expansion].
Qed.

Lemma bfs_final_frontier (graph : gmap string (list string))
    (start_node : string) :
  frontier (bfs_final graph start_node) = [].
Proof. apply while_frontier_empty. Qed.

Lemma dfs_final_frontier (graph : gmap string (list string))
    (start_node : string) :
  frontier (dfs_final graph start_node) = [].
Proof. apply while_frontier_empty. Qed.

(** Once the frontier is empty, the expanded nodes are the visited nodes and
    these are the nodes reachable from the start node. *)
Lemma search_inv_final (graph : gmap string (list string))
    (start_node : string) (st : state) :
  search_inv graph start_node st → frontier st = [] →
  ∀ x, x ∈ expanded_order st ↔ reachable graph start_node x.
Proof.
  intros [_ Hvis Hreach Hclosed Hstart _ _ _ _] Hfr x.
  assert (∀ z, z ∈ visited st ↔ z ∈ expanded_order st) as Hvis'.
  { intros z. rewrite Hvis, Hfr. set_solver. }
  split.
  - intros Hx. by apply Hreach, Hvis'.
  - revert x. apply rtc_ind_r.
    + by apply Hvis'.
    + intros y z _ Hyz IH. apply Hvis'. eauto.
Qed.

Lemma elem_of_get_all_nodes (graph : gmap string (list string)) (x : string) :
  x ∈ get_all_nodes graph ↔ x ∈ node_set graph.
Proof. unfold get_all_nodes. by rewrite elem_of_sorted, elem_of_elements. Qed.

Lemma graph_get_unknown (graph : gmap string (list string)) (node : string) :
  node ∉ get_all_nodes graph → graph_get graph node = [].
Proof.
  rewrite elem_of_get_all_nodes, elem_of_node_set. intros Hnot.
  unfold graph_get. destruct (graph !! node) eqn:Hnode; [|done].
  destruct Hnot. left. by eexists.
Qed.

Lemma bfs_step_init_lone (graph : gmap string (list string))
    (start_node : string) :
  graph_get graph start_node = [] →
  bfs_step graph (init start_node)
  = {| expanded_order := [start_node];
       trace := [lone_snapshot start_node];
       frontier := [];
       visited := {[ start_node ]} |}.
Proof. intros Hget. unfold bfs_step. simpl. by rewrite Hget. Qed.

Lemma dfs_step_init_lone (graph : gmap string (list string))
    (start_node : string) :
  graph_get graph start_node = [] →
  dfs_step graph (init start_node)
  = {| expanded_order := [start_node];
       trace := [lone_snapshot start_node];
       frontier := [];
       visited := {[ start_node ]} |}.
Proof. intros Hget. unfold dfs_step. simpl. by rewrite Hget. Qed.

(** C6: when the start node is neither a key of the graph nor a neighbour
    in it, both traversals return the expansion order [[start_node]] and a
    trace of one snapshot, whose frontier is empty. *)
Theorem unknown_start_node (graph : gmap string (list string))
    (start_node : string) :
  start_node ∉ get_all_nodes graph →
  breadth_first_search graph start_node
    = ([start_node], [lone_snapshot start_node])
  ∧ depth_first_search graph start_node
    = ([start_node], [lone_snapshot start_node])
  ∧ Snapshot.frontier (lone_snapshot start_node) = [].
Proof.
  intros Hget%graph_get_unknown.
  assert (bfs_final graph start_node = bfs_step graph (init start_node))
    as Hbfs.
  { apply (while_frontier_eq_iter _ _ _ (bfs_step_idle graph) 1).
    change (frontier (bfs_step graph (init start_node)) = []).
    by rewrite bfs_step_init_lone. }
  assert (dfs_final graph start_node = dfs_step graph (init start_node))
    as Hdfs.
  { apply (while_frontier_eq_iter _ _ _ (dfs_step_idle graph) 1).
    change (frontier (dfs_step graph (init start_node)) = []).
    by rewrite dfs_step_init_lone. }
  unfold breadth_first_search, depth_first_search.
  rewrite Hbfs, Hdfs, bfs_step_init_lone, dfs_step_init_lone by done.
  done.
Qed.

Lemma unknown_start_node_witness :
  ("Z" ∉ get_all_nodes LAB1_GRAPH)
  ∧ breadth_first_search LAB1_GRAPH "Z" = (["Z"], [lone_snapshot "Z"])
  ∧ depth_first_search LAB1_GRAPH "Z" = (["Z"], [lone_snapshot "Z"])
  ∧ Snapshot.frontier (lone_snapshot "Z") = [].
Proof.
  assert ("Z" ∉ get_all_nodes LAB1_GRAPH) as HZ by compute_done.
  split; [exact HZ|]. exact (unknown_start_node LAB1_GRAPH "Z" HZ).
Defined.

(** C7: on every graph and from every start node both loops end, that is,
    some turn finds the frontier empty and the traversal returns the state of
    that turn, and every node of the returned expansion order is in the
    visited set the loop ends with. *)
Theorem traversals_terminate (graph : gmap string (list string))
    (start_node : string) :
  (∃ n, frontier (Nat.iter n (bfs_step graph) (init start_node)) = []
        ∧ bfs_final graph start_node
          = Nat.iter n (bfs_step graph) (init start_node))
  ∧ (∀ x, x ∈ (breadth_first_search graph start_node).1 →
          x ∈ visited (bfs_final graph start_node))
  ∧ (∃ n, frontier (Nat.iter n (dfs_step graph) (init start_node)) = []
          ∧ dfs_final graph start_node
            = Nat.iter n (dfs_step graph) (init start_node))
  ∧ (∀ x, x ∈ (depth_first_search graph start_node).1 →
          x ∈ visited (dfs_final graph start_node)).
Proof.
  split_and!.
  - apply while_frontier_terminates.
  - intros x Hx. apply (inv_visited _ _ _ (bfs_final_inv graph start_node)).
    by left.
  - apply while_frontier_terminates.
  - intros x Hx. apply (inv_visited _ _ _ (dfs_final_inv graph start_node)).
    by left.
Qed.

Lemma traversals_terminate_witness :
  "H" ∈ visited (bfs_final LAB1_GRAPH "A")
  ∧ "H" ∈ visited (dfs_final LAB1_GRAPH "A").
Proof.
  destruct (traversals_terminate LAB1_GRAPH "A") as (_ & Hb & _ & Hd).
  split.
  - apply Hb. unfold breadth_first_search. rewrite bfs_final_LAB1_A.
    compute_done.
  - apply Hd. unfold depth_first_search. rewrite dfs_final_LAB1_A.
    compute_done.
Defined.

(** C8: in the trace of either traversal, the visited set of a snapshot is
    included in the visited set of the next snapshot. *)
Theorem visited_monotone (graph : gmap string (list string))
    (start_node : string) :
  (∀ i a b,
     (breadth_first_search graph start_node).2 !! i = Some a →
     (breadth_first_search graph start_node).2 !! S i = Some b →
     Snapshot.visited a ⊆ Snapshot.visited b)
  ∧ (∀ i a b,
       (depth_first_search graph start_node).2 !! i = Some a →
       (depth_first_search graph start_node).2 !! S i = Some b →
       Snapshot.visited a ⊆ Snapshot.visited b).
Proof.
  split; intros i a b.
  - apply (inv_trace_mono _ _ _ (bfs_final_inv graph start_node)).
  - apply (inv_trace_mono _ _ _ (dfs_final_inv graph start_node)).
Qed.

Lemma visited_monotone_witness :
  Snapshot.visited snapshot_before_neighbors_of_A
    ⊆ Snapshot.visited second_snapshot_LAB1_A.
Proof.
  apply (proj1 (visited_monotone LAB1_GRAPH "A") 0).
  - rewrite bfs_trace_LAB1_A. vm_compute. reflexivity.
  - rewrite bfs_trace_LAB1_A. vm_compute. reflexivity.
Defined.

(** C9: no node appears twice in the expansion order of either traversal,
    whatever the adjacency lists hold (repeated neighbours, self-loops). *)
Theorem expansion_order_NoDup (graph : gmap string (list string))
    (start_node : string) :
  NoDup (breadth_first_search graph start_node).1
  ∧ NoDup (depth_first_search graph start_node).1.
Proof.
  split.
  - pose proof (inv_nodup _ _ _ (bfs_final_inv graph start_node)) as H.
    by apply NoDup_app in H as [H _].
  - pose proof (inv_nodup _ _ _ (dfs_final_inv graph start_node)) as H.
    by apply NoDup_app in H as [H _].
Qed.

(** C10: the nodes expanded by the breadth-first search are the nodes
    reachable from the start node along the edges of the graph, and so are
    the nodes expanded by the depth-first search: both traversals expand the
    same nodes. *)
Theorem expanded_nodes_reachable (graph : gmap string (list string))
    (start_node : string) :
  (∀ x, x ∈ (breadth_first_search graph start_node).1
        ↔ reachable graph start_node x)
  ∧ (∀ x, x ∈ (depth_first_search graph start_node).1
          ↔ reachable graph start_node x)
  ∧ (∀ x, x ∈ (breadth_first_search graph start_node).1
          ↔ x ∈ (depth_first_search graph start_node).1).
Proof.
  assert (∀ x, x ∈ (breadth_first_search graph start_node).1
               ↔ reachable graph start_node x) as Hbfs.
  { apply search_inv_final;
      [apply bfs_final_inv|apply bfs_final_frontier]. }
  assert (∀ x, x ∈ (depth_first_search graph start_node).1
               ↔ reachable graph start_node x) as Hdfs.
  { apply search_inv_final;
      [apply dfs_final_inv|apply dfs_final_frontier]. }
  split_and!; [done|done|]. intros x. by rewrite Hbfs, Hdfs.
Qed.

Lemma bfs_step_cons (graph : gmap string (list string)) (st : state)
    (node : string) (queue : list string) :
  frontier st = node :: queue →
  bfs_step graph st
  = {| expanded_order := expanded_order st ++ [node];
       trace := trace st ++
         [ {| Snapshot.expanded := node;
              Snapshot.frontier := queue;
              Snapshot.visited := visited st;
              Snapshot.process_path :=
                join_path (expanded_order st ++ [node]) |} ];
       frontier :=
         (discover_all (sorted (graph_get graph node) false)
            (visited st) queue).2;
       visited :=
         (discover_all (sorted (graph_get graph node) false)
            (visited st) queue).1 |}.
Proof. intros Hfr. unfold bfs_step. by rewrite Hfr. Qed.

Lemma dfs_step_snoc (graph : gmap string (list string)) (st : state)
    (node : string) (stack : list string) :
  frontier st = stack ++ [node] →
  dfs_step graph st
  = {| expanded_order := expanded_order st ++ [node];
       trace := trace st ++
         [ {| Snapshot.expanded := node;
              Snapshot.frontier := reverse stack;
              Snapshot.visited := visited st;
              Snapshot.process_path :=
                join_path (expanded_order st ++ [node]) |} ];
       frontier :=
         (discover_all (sorted (graph_get graph node) true)
            (visited st) stack).2;
       visited :=
         (discover_all (sorted (graph_get graph node) true)
            (visited st) stack).1 |}.
Proof. intros Hfr. unfold dfs_step. by rewrite Hfr, pop_snoc. Qed.

(** In a state of the invariant, the node about to be expanded does not wait
    a second time in the frontier, and no unvisited node waits there. *)
Lemma search_inv_frontier (graph : gmap string (list string))
    (start_node : string) (st : state) (node : string) (rest : list string) :
  search_inv graph start_node st → frontier st ≡ₚ node :: rest →
  (node ∉ rest) ∧ ∀ child, child ∉ visited st → child ∉ rest.
Proof.
  intros [Hnodup Hvis _ _ _ _ _ _ _] Hperm. rewrite Hperm in Hnodup.
  apply NoDup_app in Hnodup as (_ & _ & Hnd).
  apply NoDup_cons in Hnd as [Hnode _]. split; [done|].
  intros child Hchild Hin. apply Hchild, Hvis. right. rewrite Hperm.
  by right.
Qed.

(** C4: the snapshot at index [i] of a trace shows the state of turn [i] of
    the loop after the node was taken from the frontier and before its
    neighbours are looked at: its frontier is what the pop left (so it holds
    neither the expanded node nor any neighbour not visited yet), its
    visited set is the one the turn started with (so it holds no neighbour
    discovered in this turn), and its process path joins the first [i + 1]
    nodes of the expansion order, of which the expanded node is the last. *)
Theorem snapshot_before_neighbors (graph : gmap string (list string))
    (start_node : string) :
  (∀ i snap,
     (breadth_first_search graph start_node).2 !! i = Some snap →
     let st := Nat.iter i (bfs_step graph) (init start_node) in
     ∃ node queue,
       frontier st = node :: queue
       ∧ Snapshot.expanded snap = node
       ∧ Snapshot.frontier snap = queue
       ∧ Snapshot.visited snap = visited st
       ∧ (node ∉ Snapshot.frontier snap)
       ∧ (∀ child, child ∈ graph_get graph node → child ∉ visited st →
            (child ∉ Snapshot.frontier snap)
            ∧ (child ∉ Snapshot.visited snap))
       ∧ (breadth_first_search graph start_node).1 !! i = Some node
       ∧ Snapshot.process_path snap
         = join_path (take (S i) (breadth_first_search graph start_node).1))
  ∧ (∀ i snap,
       (depth_first_search graph start_node).2 !! i = Some snap →
       let st := Nat.iter i (dfs_step graph) (init start_node) in
       ∃ node stack,
         frontier st = stack ++ [node]
         ∧ Snapshot.expanded snap = node
         ∧ Snapshot.frontier snap = reverse stack
         ∧ Snapshot.visited snap = visited st
         ∧ (node ∉ Snapshot.frontier snap)
         ∧ (∀ child, child ∈ graph_get graph node → child ∉ visited st →
              (child ∉ Snapshot.frontier snap)
              ∧ (child ∉ Snapshot.visited snap))
         ∧ (depth_first_search graph start_node).1 !! i = Some node
         ∧ Snapshot.process_path snap
           = join_path (take (S i) (depth_first_search graph start_node).1)).
Proof.
  split; intros i snap Hi st.
  - pose proof (bfs_final_inv graph start_node) as Hfinal.
    pose proof (inv_trace_path _ _ _ Hfinal i snap Hi) as Hpath.
    pose proof (inv_trace_expanded _ _ _ Hfinal) as Hexp.
    pose proof Hi as Hturn.
    apply (snapshot_at_turn _ _ _ id _ (bfs_step_idle graph)
             (bfs_step_expansion graph)) in Hturn as (Hne & Htrace & _).
    fold st in Hne, Htrace.
    destruct (frontier st) as [|node queue] eqn:Hfr; [done|].
    rewrite (bfs_step_cons graph st node queue Hfr) in Htrace.
    simpl in Htrace. apply app_inv_head in Htrace. injection Htrace as <-.
    destruct (search_inv_frontier graph start_node st node queue)
      as [Hnode Hchild]; [apply bfs_turn_inv|by rewrite Hfr|].
    exists node, queue. simpl. split_and!; try done.
    + intros child _ Hvis. split; [by apply Hchild|done].
    + change (expanded_order (bfs_final graph start_node) !! i = Some node).
      rewrite <- Hexp, list_lookup_fmap.
      change (Snapshot.expanded <$>
                (breadth_first_search graph start_node).2 !! i = Some node).
      by rewrite Hi.
  - pose proof (dfs_final_inv graph start_node) as Hfinal.
    pose proof (inv_trace_path _ _ _ Hfinal i snap Hi) as Hpath.
    pose proof (inv_trace_expanded _ _ _ Hfinal) as Hexp.
    pose proof Hi as Hturn.
    apply (snapshot_at_turn _ _ _ reverse _ (dfs_step_idle graph)
             (dfs_step_expansion graph)) in Hturn as (Hne & Htrace & _).
    fold st in Hne, Htrace.
    destruct (pop_Some (frontier st) Hne) as (node & stack & Hfr & _).
    rewrite (dfs_step_snoc graph st node stack Hfr) in Htrace.
    simpl in Htrace. apply app_inv_head in Htrace. injection Htrace as <-.
    destruct (search_inv_frontier graph start_node st node stack)
      as [Hnode Hchild];
      [apply dfs_turn_inv|by rewrite Hfr, Permutation_app_comm|].
    exists node, stack. simpl. split_and!; try done.
    + by rewrite elem_of_reverse.
    + intros child _ Hvis. split; [|done].
      rewrite elem_of_reverse. by apply Hchild.
    + change (expanded_order (dfs_final graph start_node) !! i = Some node).
      rewrite <- Hexp, list_lookup_fmap.
      change (Snapshot.expanded <$>
                (depth_first_search graph start_node).2 !! i = Some node).
      by rewrite Hi.
Qed.

Lemma snapshot_before_neighbors_witness :
  ∃ node queue,
    frontier (init "A") = node :: queue
    ∧ Snapshot.expanded snapshot_before_neighbors_of_A = node
    ∧ Snapshot.frontier snapshot_before_neighbors_of_A = queue
    ∧ Snapshot.visited snapshot_before_neighbors_of_A = visited (init "A")
    ∧ (node ∉ Snapshot.frontier snapshot_before_neighbors_of_A)
    ∧ (∀ child, child ∈ graph_get LAB1_GRAPH node →
         child ∉ visited (init "A") →
         (child ∉ Snapshot.frontier snapshot_before_neighbors_of_A)
         ∧ (child ∉ Snapshot.visited snapshot_before_neighbors_of_A))
    ∧ (breadth_first_search LAB1_GRAPH "A").1 !! 0 = Some node
    ∧ Snapshot.process_path snapshot_before_neighbors_of_A
      = join_path (take 1 (breadth_first_search LAB1_GRAPH "A").1).
Proof.
  apply (proj1 (snapshot_before_neighbors LAB1_GRAPH "A") 0
           snapshot_before_neighbors_of_A).
  rewrite bfs_trace_LAB1_A. vm_compute. reflexivity.
Defined.

(** ** Tie-break among the unvisited neighbours *)

Lemma ltb_not_le (x y : string) : String.ltb x y = true → ¬ String.le y x.
Proof.
  unfold String.ltb, String.le, String.leb.
  rewrite (String.compare_antisym y x).
  destruct (String.compare x y); simpl; intros H; try discriminate H.
  intros [].
Qed.

Lemma ltb_neq (x y : string) : String.ltb x y = true → x ≠ y.
Proof.
  intros Hlt ->. apply (ltb_not_le _ _ Hlt). reflexivity.
Qed.

Lemma sublist_StronglySorted {A} (R : relation A) (k l : list A) :
  k `sublist_of` l → StronglySorted R l → StronglySorted R k.
Proof.
  induction 1 as [|x k l Hsub IH|x k l Hsub IH];
    rewrite ?StronglySorted_cons; [done| |].
  - intros [Hall Hl]. split; [|by apply IH].
    rewrite Forall_forall in *. eauto using elem_of_sublist.
  - intros [_ Hl]. by apply IH.
Qed.

Lemma sorted_ascending (l : list string) :
  StronglySorted String.le (sorted l false).
Proof. apply StronglySorted_merge_sort; apply _. Qed.

Lemma sorted_descending (l : list string) :
  StronglySorted (flip String.le) (sorted l true).
Proof.
  apply StronglySorted_merge_sort; [apply _|].
  intros x y. unfold flip. destruct (total String.le x y); auto.
Qed.

(** When exactly two neighbours [a] and [b] are unvisited and the sorted
    list cannot hold [b] before [a], the [for] loop appends [a], then [b]. *)
Lemma discover_all_two (R : relation string) (neighbors : list string)
    (visited : gset string) (frontier : list string) (a b : string) :
  StronglySorted R neighbors →
  (∀ z, (z ∈ neighbors ∧ z ∉ visited) ↔ (z = a ∨ z = b)) →
  a ≠ b → ¬ R b a →
  discover_all neighbors visited frontier
  = (list_to_set [a; b] ∪ visited, frontier ++ [a; b]).
Proof.
  intros Hsorted Hab Hne HR.
  destruct (discover_all_spec neighbors visited frontier)
    as (new & -> & Hnd & Hsub & Hnew).
  assert ([a; b] ≡ₚ new) as Hperm.
  { apply NoDup_Permutation; [|done|].
    - apply NoDup_cons. split; [set_solver|apply NoDup_singleton].
    - intros z. rewrite Hnew, Hab. set_solver. }
  apply Permutation_length_2_inv in Hperm as [-> | ->]; [done|].
  apply (sublist_StronglySorted R) in Hsub; [|done].
  apply StronglySorted_cons in Hsub as [Hall _].
  apply Forall_cons in Hall as [Hba _]. done.
Qed.

(** C5: let [x] and [y], with [x < y], be the two unvisited neighbours of the
    node a turn expands.  [breadth_first_search] appends [x] to the queue,
    then [y].  [depth_first_search] pushes [y], then [x], so that [x] is
    expanded in the next turn and [y] in a later one: in the returned order
    [x] comes before [y]. *)
Theorem tie_break (graph : gmap string (list string)) (x y : string) :
  String.ltb x y = true →
  (∀ st node queue,
     frontier st = node :: queue →
     unvisited_neighbors graph st node x y →
     frontier (bfs_step graph st) = queue ++ [x; y])
  ∧ (∀ start_node i node stack,
       let st := Nat.iter i (dfs_step graph) (init start_node) in
       frontier st = stack ++ [node] →
       unvisited_neighbors graph st node x y →
       frontier (dfs_step graph st) = stack ++ [y; x]
       ∧ ∃ mid rest,
           (depth_first_search graph start_node).1
           = expanded_order st ++ [node; x] ++ mid ++ [y] ++ rest).
Proof.
  intros Hlt. pose proof (ltb_neq x y Hlt) as Hne.
  pose proof (ltb_not_le x y Hlt) as Hnle. split.
  - intros st node queue Hfr Hunv.
    rewrite (bfs_step_cons graph st node queue Hfr).
    rewrite (discover_all_two String.le _ _ _ x y); [done| | |done|done].
    + apply sorted_ascending.
    + intros z. rewrite elem_of_sorted. apply Hunv.
  - intros start_node i node stack st Hfr Hunv.
    pose proof (dfs_turn_inv graph start_node i) as Hinv. fold st in Hinv.
    set (st1 := dfs_step graph st).
    assert (expanded_order st1 = expanded_order st ++ [node]) as Ho1.
    { unfold st1. by rewrite (dfs_step_snoc graph st node stack Hfr). }
    assert (frontier st1 = stack ++ [y; x]) as Hfr1.
    { unfold st1. rewrite (dfs_step_snoc graph st node stack Hfr).
      rewrite (discover_all_two (flip String.le) _ _ _ y x);
        [done| | |done|done].
      + apply sorted_descending.
      + intros z. rewrite elem_of_sorted, (Hunv z). tauto. }
    split; [done|].
    assert (frontier st1 = (stack ++ [y]) ++ [x]) as Hfr1'.
    { by rewrite Hfr1, <- app_assoc. }
    set (st2 := dfs_step graph st1).
    assert (expanded_order st2 = (expanded_order st ++ [node]) ++ [x])
      as Ho2.
    { unfold st2. rewrite (dfs_step_snoc graph st1 x _ Hfr1'). simpl.
      by rewrite Ho1. }
    assert (y ∈ frontier st2) as Hy2.
    { unfold st2. rewrite (dfs_step_snoc graph st1 x _ Hfr1').
      destruct (discover_all_spec (sorted (graph_get graph x) true)
                  (visited st1) (stack ++ [y])) as (new & -> & _).
      simpl. set_solver. }
    pose proof (while_frontier_iter graph (dfs_step graph)
                  (dfs_step_decreases graph) (dfs_step_idle graph)
                  (S (S i)) (init start_node)) as Hw.
    change (Nat.iter (S (S i)) (dfs_step graph) (init start_node))
      with st2 in Hw.
    fold (dfs_final graph start_node) in Hw.
    destruct (while_extends graph (dfs_step graph) reverse
                (dfs_step_decreases graph) (dfs_step_expansion graph) st2)
      as [_ [k Hk]].
    apply (while_expands_frontier graph (dfs_step graph) reverse
             (dfs_step_decreases graph) (dfs_step_idle graph)
             (dfs_step_expansion graph)) in Hy2.
    rewrite Hw in Hk, Hy2. rewrite Hk, Ho2 in Hy2.
    assert (y ∉ visited st) as Hyv.
    { apply (Hunv y). by right. }
    assert (y ∈ k) as Hyk.
    { rewrite !elem_of_app, !list_elem_of_singleton in Hy2.
      destruct Hy2 as [[[Hy|Hy]|Hy]|Hy]; [| | |done].
      - destruct Hyv. apply (inv_visited _ _ _ Hinv). by left.
      - destruct Hyv. apply (inv_visited _ _ _ Hinv). right.
        rewrite Hfr, Hy. set_solver.
      - by destruct Hne. }
    apply list_elem_of_split in Hyk as (mid & rest & ->).
    exists mid, rest.
    change ((depth_first_search graph start_node).1)
      with (expanded_order (dfs_final graph start_node)).
    rewrite Hk, Ho2, <- !app_assoc. done.
Qed.

Lemma tie_break_witness :
  frontier (bfs_step LAB1_GRAPH (init "A")) = ["B"; "D"]
  ∧ frontier (dfs_step LAB1_GRAPH (init "A")) = ["D"; "B"]
  ∧ ∃ mid rest,
      (depth_first_search LAB1_GRAPH "A").1
      = ["A"; "B"] ++ mid ++ ["D"] ++ rest.
Proof.
  assert (String.ltb "B" "D" = true) as Hlt by reflexivity.
  assert (unvisited_neighbors LAB1_GRAPH (init "A") "A" "B" "D") as Hunv.
  { intros z. change (graph_get LAB1_GRAPH "A") with ["D"; "B"]. simpl.
    rewrite !elem_of_cons, elem_of_nil, elem_of_singleton.
    split; [tauto|]. intros [-> | ->]; split; auto; discriminate. }
  destruct (tie_break LAB1_GRAPH "B" "D" Hlt) as [Hbfs Hdfs]. split.
  - exact (Hbfs (init "A") "A" [] eq_refl Hunv).
  - exact (Hdfs "A" 0 "A" [] eq_refl Hunv).
Defined.

(** * Further properties of the traversals *)

(** ** Turns of the loop and entries of the trace *)

Section search_trace.
Variable graph : gmap string (list string).
Variable start_node : string.
Variable body : state → state.
Variable render : list string → list string.
Variable body_decreases :
  ∀ st, frontier st ≠ [] → measure graph (body st) < measure graph st.
Hypothesis body_idle : ∀ st, frontier st = [] → body st = st.
Hypothesis body_expands :
  ∀ st, frontier st ≠ [] → expansion graph render st (body st).
Hypothesis render_Permutation : ∀ l, render l ≡ₚ l.

#[local] Abbreviation final :=
  (while_frontier graph body body_decreases (init start_node)).
#[local] Abbreviation at_turn := (λ n, Nat.iter n body (init start_node)).

(** A turn that finds the frontier non-empty leaves a snapshot in the
    returned trace. *)
Lemma turn_has_snapshot (i : nat) :
  frontier (at_turn i) ≠ [] → is_Some (trace final !! i).
Proof.
  intros Hne.
  destruct (turn_trace_length graph start_node body render body_idle
              body_expands i) as [_ Hlen].
  specialize (Hlen Hne).
  destruct (while_extends graph body render body_decreases body_expands
              (body (at_turn i))) as [[kt Ht] _].
  rewrite (while_frontier_body graph body body_decreases body_idle) in Ht.
  rewrite (while_frontier_iter graph body body_decreases body_idle i) in Ht.
  destruct (body_expands _ Hne) as (node & rest & new & _ & Heq & _).
  rewrite Heq in Ht. simpl in Ht. rewrite Ht.
  apply lookup_lt_is_Some. rewrite !length_app. simpl. lia.
Qed.

(** The last snapshot belongs to the turn that empties the frontier. *)
Lemma last_snapshot_turn (snap : Snapshot.t) :
  last (trace final) = Some snap →
  ∃ n, trace final !! n = Some snap ∧ length (trace final) = S n
       ∧ frontier (at_turn (S n)) = [] ∧ final = at_turn (S n).
Proof.
  intros Hlast. rewrite last_lookup in Hlast.
  destruct (length (trace final)) as [|n] eqn:Hlen.
  { apply length_zero_iff_nil in Hlen. by rewrite Hlen in Hlast. }
  simpl in Hlast. exists n. split_and!; [done..| |].
  - destruct (frontier (at_turn (S n))) as [|node rest] eqn:Hfr; [done|].
    destruct (turn_has_snapshot (S n)) as [s Hs]; [by rewrite Hfr|].
    apply lookup_lt_Some in Hs. lia.
  - apply (while_frontier_eq_iter graph body body_decreases body_idle (S n)).
    destruct (frontier (at_turn (S n))) as [|node rest] eqn:Hfr; [done|].
    destruct (turn_has_snapshot (S n)) as [s Hs]; [by rewrite Hfr|].
    apply lookup_lt_Some in Hs. lia.
Qed.

Lemma last_snapshot_final (snap : Snapshot.t) :
  last (trace final) = Some snap →
  Snapshot.frontier snap = render []
  ∧ Snapshot.visited snap = visited final
  ∧ Snapshot.process_path snap = join_path (expanded_order final).
Proof.
  intros (n & Hn & Hlen & Hfr & Hfinal)%last_snapshot_turn.
  pose proof (run_inv graph start_node body render body_decreases body_idle
                body_expands) as Hinv.
  pose proof (inv_trace_path _ _ _ Hinv n snap Hn) as Hpath.
  rewrite (search_inv_trace_length _ _ _ Hinv) in Hlen.
  rewrite take_ge in Hpath by lia.
  apply (snapshot_at_turn graph start_node body render body_decreases
           body_idle body_expands) in Hn as (Hne & Htrace & _).
  rewrite Hfinal. simpl in Hfr |- *.
  destruct (body_expands _ Hne) as (node & rest & new & _ & Heq & _).
  rewrite Heq in Hfr, Htrace |- *. simpl in *.
  apply app_eq_nil in Hfr as [-> ->].
  apply app_inv_head in Htrace. injection Htrace as <-. simpl.
  split_and!; [done| |done].
  apply set_eq. intros z. set_solver.
Qed.

(** What a snapshot shows as visited: the nodes expanded so far and the nodes
    of its frontier, each of them once. *)
Lemma snapshot_visited_split (i : nat) (snap : Snapshot.t) :
  trace final !! i = Some snap →
  NoDup (take (S i) (expanded_order final) ++ Snapshot.frontier snap)
  ∧ ∀ x, x ∈ Snapshot.visited snap
         ↔ x ∈ take (S i) (expanded_order final)
           ∨ x ∈ Snapshot.frontier snap.
Proof.
  intros Hi.
  apply (snapshot_at_turn graph start_node body render body_decreases
           body_idle body_expands) in Hi as (Hne & Htrace & <-).
  pose proof (turn_inv graph start_node body render body_idle body_expands i)
    as [Hnodup Hvis _ _ _ _ _ _ _].
  destruct (body_expands _ Hne) as (node & rest & new & Hperm & Heq & _).
  rewrite Heq in Htrace |- *. simpl in *.
  apply app_inv_head in Htrace. injection Htrace as <-. simpl.
  rewrite Hperm in Hnodup. split.
  - by rewrite render_Permutation, <- app_assoc.
  - intros x. rewrite Hvis, Hperm, render_Permutation. set_solver.
Qed.

(** The first turn expands the start node. *)
Lemma first_turn (node : string) (snap : Snapshot.t) (st' : state) :
  body (init start_node) = st' →
  expanded_order st' = [node] → trace st' = [snap] →
  head (expanded_order final) = Some node ∧ head (trace final) = Some snap.
Proof.
  intros Hbody Ho Ht.
  destruct (while_extends graph body render body_decreases body_expands
              (body (init start_node))) as [[kt Hkt] [ko Hko]].
  rewrite (while_frontier_body graph body body_decreases body_idle)
    in Hkt, Hko.
  rewrite Hbody, Ht in Hkt. rewrite Hbody, Ho in Hko.
  by rewrite Hkt, Hko.
Qed.
End search_trace.

Lemma bfs_first_turn (graph : gmap string (list string)) (start_node : string) :
  expanded_order (bfs_step graph (init start_node)) = [start_node]
  ∧ trace (bfs_step graph (init start_node)) = [lone_snapshot start_node].
Proof. by rewrite (bfs_step_cons graph (init start_node) start_node []). Qed.

Lemma dfs_first_turn (graph : gmap string (list string)) (start_node : string) :
  expanded_order (dfs_step graph (init start_node)) = [start_node]
  ∧ trace (dfs_step graph (init start_node)) = [lone_snapshot start_node].
Proof. by rewrite (dfs_step_snoc graph (init start_node) start_node []). Qed.

(** X1: the expanded nodes of the snapshots, read in trace order, are the
    returned expansion order; the trace has one snapshot per expanded
    node. *)
Theorem trace_expanded_order (graph : gmap string (list string))
    (start_node : string) :
  Snapshot.expanded <$> (breadth_first_search graph start_node).2
    = (breadth_first_search graph start_node).1
  ∧ Snapshot.expanded <$> (depth_first_search graph start_node).2
    = (depth_first_search graph start_node).1
  ∧ length (breadth_first_search graph start_node).2
    = length (breadth_first_search graph start_node).1
  ∧ length (depth_first_search graph start_node).2
    = length (depth_first_search graph start_node).1.
Proof.
  pose proof (bfs_final_inv graph start_node) as Hb.
  pose proof (dfs_final_inv graph start_node) as Hd.
  split_and!.
  - apply (inv_trace_expanded _ _ _ Hb).
  - apply (inv_trace_expanded _ _ _ Hd).
  - apply (search_inv_trace_length _ _ _ Hb).
  - apply (search_inv_trace_length _ _ _ Hd).
Qed.

(** X2: whatever the graph, both traversals expand the start node first, and
    their first snapshot shows an empty frontier, the start node as the only
    visited node and the start node alone as process path. *)
Theorem first_expansion (graph : gmap string (list string))
    (start_node : string) :
  head (breadth_first_search graph start_node).1 = Some start_node
  ∧ head (breadth_first_search graph start_node).2
    = Some (lone_snapshot start_node)
  ∧ head (depth_first_search graph start_node).1 = Some start_node
  ∧ head (depth_first_search graph start_node).2
    = Some (lone_snapshot start_node).
Proof.
  destruct (bfs_first_turn graph start_node) as [Hbo Hbt].
  destruct (dfs_first_turn graph start_node) as [Hdo Hdt].
  destruct (first_turn graph start_node (bfs_step graph) id
              (bfs_step_decreases graph) (bfs_step_idle graph)
              (bfs_step_expansion graph) start_node
              (lone_snapshot start_node) _ eq_refl Hbo Hbt) as [Hb1 Hb2].
  destruct (first_turn graph start_node (dfs_step graph) reverse
              (dfs_step_decreases graph) (dfs_step_idle graph)
              (dfs_step_expansion graph) start_node
              (lone_snapshot start_node) _ eq_refl Hdo Hdt) as [Hd1 Hd2].
  done.
Qed.

(** X3: the last snapshot of either trace shows an empty frontier, its
    visited set holds exactly the expanded nodes, and its process path is
    the returned expansion order joined by arrows, the text the page shows
    as traversal path. *)
Theorem last_snapshot (graph : gmap string (list string))
    (start_node : string) :
  (∃ snap,
     last (breadth_first_search graph start_node).2 = Some snap
     ∧ Snapshot.frontier snap = []
     ∧ (∀ x, x ∈ Snapshot.visited snap
             ↔ x ∈ (breadth_first_search graph start_node).1)
     ∧ Snapshot.process_path snap
       = join_path (breadth_first_search graph start_node).1)
  ∧ (∃ snap,
       last (depth_first_search graph start_node).2 = Some snap
       ∧ Snapshot.frontier snap = []
       ∧ (∀ x, x ∈ Snapshot.visited snap
               ↔ x ∈ (depth_first_search graph start_node).1)
       ∧ Snapshot.process_path snap
         = join_path (depth_first_search graph start_node).1).
Proof.
  destruct (bfs_first_turn graph start_node) as [Hbo Hbt].
  destruct (dfs_first_turn graph start_node) as [Hdo Hdt].
  destruct (first_turn graph start_node (bfs_step graph) id
              (bfs_step_decreases graph) (bfs_step_idle graph)
              (bfs_step_expansion graph) start_node
              (lone_snapshot start_node) _ eq_refl Hbo Hbt) as [_ Hb].
  destruct (first_turn graph start_node (dfs_step graph) reverse
              (dfs_step_decreases graph) (dfs_step_idle graph)
              (dfs_step_expansion graph) start_node
              (lone_snapshot start_node) _ eq_refl Hdo Hdt) as [_ Hd].
  change (head (breadth_first_search graph start_node).2
          = Some (lone_snapshot start_node)) in Hb.
  change (head (depth_first_search graph start_node).2
          = Some (lone_snapshot start_node)) in Hd.
  split.
  - destruct (last (breadth_first_search graph start_node).2)
      as [snap|] eqn:Hlast.
    2:{ apply last_None in Hlast. by rewrite Hlast in Hb. }
    exists snap. split; [done|].
    destruct (last_snapshot_final graph start_node (bfs_step graph) id
                (bfs_step_decreases graph) (bfs_step_idle graph)
                (bfs_step_expansion graph) (λ l, reflexivity l) snap Hlast)
      as (Hf & Hv & Hp).
    split_and!; [done| |done].
    intros x. rewrite Hv.
    rewrite (inv_visited _ _ _ (bfs_final_inv graph start_node)).
    fold (bfs_final graph start_node). rewrite bfs_final_frontier.
    set_solver.
  - destruct (last (depth_first_search graph start_node).2)
      as [snap|] eqn:Hlast.
    2:{ apply last_None in Hlast. by rewrite Hlast in Hd. }
    exists snap. split; [done|].
    destruct (last_snapshot_final graph start_node (dfs_step graph) reverse
                (dfs_step_decreases graph) (dfs_step_idle graph)
                (dfs_step_expansion graph) reverse_Permutation snap Hlast)
      as (Hf & Hv & Hp).
    split_and!; [done| |done].
    intros x. rewrite Hv.
    rewrite (inv_visited _ _ _ (dfs_final_inv graph start_node)).
    fold (dfs_final graph start_node). rewrite dfs_final_frontier.
    set_solver.
Qed.

(** X4: in every snapshot, the visited set is made of the nodes expanded so
    far, the current one included, and of the nodes of the snapshot's
    frontier; no node is among both and none is twice in the frontier. *)
Theorem snapshot_visited (graph : gmap string (list string))
    (start_node : string) :
  (∀ i snap,
     (breadth_first_search graph start_node).2 !! i = Some snap →
     NoDup (take (S i) (breadth_first_search graph start_node).1
            ++ Snapshot.frontier snap)
     ∧ ∀ x, x ∈ Snapshot.visited snap
            ↔ x ∈ take (S i) (breadth_first_search graph start_node).1
              ∨ x ∈ Snapshot.frontier snap)
  ∧ (∀ i snap,
       (depth_first_search graph start_node).2 !! i = Some snap →
       NoDup (take (S i) (depth_first_search graph start_node).1
              ++ Snapshot.frontier snap)
       ∧ ∀ x, x ∈ Snapshot.visited snap
              ↔ x ∈ take (S i) (depth_first_search graph start_node).1
                ∨ x ∈ Snapshot.frontier snap).
Proof.
  split; intros i snap Hi.
  - apply (snapshot_visited_split graph start_node (bfs_step graph) id
             (bfs_step_decreases graph) (bfs_step_idle graph)
             (bfs_step_expansion graph)); done.
  - apply (snapshot_visited_split graph start_node (dfs_step graph) reverse
             (dfs_step_decreases graph) (dfs_step_idle graph)
             (dfs_step_expansion graph)); [apply reverse_Permutation|done].
Qed.

Lemma snapshot_visited_witness :
  NoDup (take 2 (depth_first_search LAB1_GRAPH "A").1
         ++ Snapshot.frontier second_snapshot_LAB1_A)
  ∧ ∀ x, x ∈ Snapshot.visited second_snapshot_LAB1_A
         ↔ x ∈ take 2 (depth_first_search LAB1_GRAPH "A").1
           ∨ x ∈ Snapshot.frontier second_snapshot_LAB1_A.
Proof.
  apply (proj2 (snapshot_visited LAB1_GRAPH "A") 1).
  rewrite dfs_trace_LAB1_A. vm_compute. reflexivity.
Defined.

(** ** How many nodes a traversal expands *)

Lemma reachable_node_set (graph : gmap string (list string)) (s x : string) :
  reachable graph s x → x = s ∨ x ∈ get_all_nodes graph.
Proof.
  intros [-> |(y & _ & Hyx)]%rtc_inv_r; [by left|right].
  apply elem_of_get_all_nodes. by eapply graph_get_node_set.
Qed.

Lemma reachable_order_bound (graph : gmap string (list string))
    (start_node : string) (order : list string) :
  NoDup order → (∀ x, x ∈ order → reachable graph start_node x) →
  (∀ x, x ∈ order → x = start_node ∨ x ∈ get_all_nodes graph)
  ∧ length order ≤ S (length (get_all_nodes graph))
  ∧ (start_node ∈ get_all_nodes graph →
     length order ≤ length (get_all_nodes graph)).
Proof.
  intros Hnd Hreach.
  assert (∀ x, x ∈ order → x = start_node ∨ x ∈ get_all_nodes graph) as Hin.
  { intros x Hx. by apply reachable_node_set, Hreach. }
  split_and!; [done| |].
  - change (S (length (get_all_nodes graph)))
      with (length (start_node :: get_all_nodes graph)).
    apply submseteq_length, NoDup_submseteq; [done|].
    intros x Hx. apply elem_of_cons. by apply Hin.
  - intros Hs. apply submseteq_length, NoDup_submseteq; [done|].
    intros x Hx. by destruct (Hin x Hx) as [-> |?].
Qed.

(** X5: a traversal expands only the start node and nodes of the graph (keys
    and neighbours), so it runs at most one turn more than
    [get_all_nodes] has nodes, and no more turns than that when the start
    node is one of them. *)
Theorem expansion_bound (graph : gmap string (list string))
    (start_node : string) :
  ((∀ x, x ∈ (breadth_first_search graph start_node).1 →
         x = start_node ∨ x ∈ get_all_nodes graph)
   ∧ length (breadth_first_search graph start_node).1
     ≤ S (length (get_all_nodes graph))
   ∧ (start_node ∈ get_all_nodes graph →
      length (breadth_first_search graph start_node).1
      ≤ length (get_all_nodes graph)))
  ∧ ((∀ x, x ∈ (depth_first_search graph start_node).1 →
           x = start_node ∨ x ∈ get_all_nodes graph)
     ∧ length (depth_first_search graph start_node).1
       ≤ S (length (get_all_nodes graph))
     ∧ (start_node ∈ get_all_nodes graph →
        length (depth_first_search graph start_node).1
        ≤ length (get_all_nodes graph))).
Proof.
  split; apply reachable_order_bound.
  - pose proof (inv_nodup _ _ _ (bfs_final_inv graph start_node)) as H.
    by apply NoDup_app in H as [H _].
  - intros x Hx.
    apply (search_inv_final graph start_node (bfs_final graph start_node));
      [apply bfs_final_inv|apply bfs_final_frontier|done].
  - pose proof (inv_nodup _ _ _ (dfs_final_inv graph start_node)) as H.
    by apply NoDup_app in H as [H _].
  - intros x Hx.
    apply (search_inv_final graph start_node (dfs_final graph start_node));
      [apply dfs_final_inv|apply dfs_final_frontier|done].
Qed.

Lemma expansion_bound_witness :
  length (breadth_first_search LAB1_GRAPH "C").1
  ≤ length (get_all_nodes LAB1_GRAPH).
Proof.
  apply (expansion_bound LAB1_GRAPH "C"). compute_done.
Defined.

(** ** Breadth-first search expands the nodes by distance *)

(** [by_level lvl a b]: node [a] is not farther than node [b]. *)
Definition by_level (lvl : string → nat) (a b : string) : Prop :=
  lvl a ≤ lvl b.

(** What the queue discipline keeps, for a numbering [lvl] of the visited
    nodes: a visited node is [lvl] edges away from the start node, the
    expanded nodes followed by the queue are in order of level, the levels
    in the queue differ by at most one, and an edge out of an expanded node
    leads to a visited node at most one level up. *)
Record bfs_levels (graph : gmap string (list string)) (start_node : string)
    (lvl : string → nat) (st : state) : Prop := {
  lv_start : lvl start_node = 0;
  lv_path : ∀ x, x ∈ visited st → nsteps (edge graph) (lvl x) start_node x;
  lv_sorted :
    StronglySorted (by_level lvl) (expanded_order st ++ frontier st);
  lv_window :
    ∀ a b, a ∈ frontier st → b ∈ frontier st → lvl b ≤ S (lvl a);
  lv_edges :
    ∀ u v, u ∈ expanded_order st → edge graph u v →
      v ∈ visited st ∧ lvl v ≤ S (lvl u)
}.

Lemma by_level_ext (lvl lvl' : string → nat) (l : list string) :
  (∀ a, a ∈ l → lvl' a = lvl a) →
  StronglySorted (by_level lvl) l → StronglySorted (by_level lvl') l.
Proof.
  intros Hext Hl. induction Hl as [|a l Hl IH Hall]; constructor.
  - apply IH. intros b Hb. apply Hext. by right.
  - rewrite Forall_forall in *. intros b Hb. unfold by_level.
    rewrite !Hext by set_solver. by apply Hall.
Qed.

Lemma by_level_constant (lvl : string → nat) (c : nat) (l : list string) :
  (∀ a, a ∈ l → lvl a = c) → StronglySorted (by_level lvl) l.
Proof.
  intros Hc. induction l as [|a l IH]; constructor.
  - apply IH. intros b Hb. apply Hc. by right.
  - rewrite Forall_forall. intros b Hb. unfold by_level.
    rewrite !Hc by set_solver. done.
Qed.

Lemma StronglySorted_lookup_lt {A} (R : relation A) (l : list A)
    (i j : nat) (a b : A) :
  StronglySorted R l → i < j → l !! i = Some a → l !! j = Some b → R a b.
Proof.
  intros Hl. revert i j. induction Hl as [|x l Hl IH Hall]; intros i j Hij.
  - by rewrite lookup_nil.
  - destruct j as [|j]; [lia|]. destruct i as [|i]; simpl.
    + intros [= ->] Hb. rewrite Forall_forall in Hall.
      eapply Hall, list_elem_of_lookup_2, Hb.
    + apply IH. lia.
Qed.

Lemma bfs_levels_init (graph : gmap string (list string))
    (start_node : string) :
  bfs_levels graph start_node (λ _, 0) (init start_node).
Proof.
  split; simpl.
  - done.
  - intros x ->%elem_of_singleton. constructor.
  - by apply (by_level_constant _ 0).
  - intros; lia.
  - intros u v Hu. by apply elem_of_nil in Hu.
Qed.

Lemma bfs_levels_step (graph : gmap string (list string))
    (start_node : string) (lvl : string → nat) (st : state) :
  search_inv graph start_node st → bfs_levels graph start_node lvl st →
  frontier st ≠ [] →
  ∃ lvl', bfs_levels graph start_node lvl' (bfs_step graph st).
Proof.
  intros [_ Hvis _ _ Hstart _ _ _ _] [Hl0 Hpath Hsorted Hwin Hedges] Hne.
  destruct (frontier st) as [|u rest] eqn:Hfr; [done|]. clear Hne.
  rewrite (bfs_step_cons graph st u rest Hfr).
  destruct (discover_all_spec (sorted (graph_get graph u) false)
              (visited st) rest) as (new & -> & _ & _ & Hnew).
  simpl.
  assert (∀ x, x ∈ new ↔ edge graph u x ∧ x ∉ visited st) as Hnew'.
  { intros x. by rewrite Hnew, elem_of_sorted. }
  clear Hnew.
  set (lvl' := λ x, if decide (x ∈ new) then S (lvl u) else lvl x).
  assert (∀ x, x ∈ visited st → lvl' x = lvl x) as Hold.
  { intros x Hx. unfold lvl'. destruct (decide (x ∈ new)) as [Hin|]; [|done].
    by apply Hnew' in Hin as [_ []]. }
  assert (∀ x, x ∈ new → lvl' x = S (lvl u)) as Hfresh.
  { intros x Hx. unfold lvl'. by rewrite decide_True. }
  assert (u ∈ visited st) as Hu by (apply Hvis; set_solver).
  assert (∀ a, a ∈ expanded_order st → lvl a ≤ lvl u) as Hbefore.
  { intros a Ha. apply StronglySorted_app in Hsorted as (Hcross & _ & _).
    apply Hcross; [done|]. by left. }
  assert (∀ a, a ∈ rest → lvl u ≤ lvl a) as Hafter.
  { intros a Ha. apply StronglySorted_app in Hsorted as (_ & _ & Hq).
    apply StronglySorted_cons in Hq as [Hall _].
    rewrite Forall_forall in Hall. by apply Hall. }
  exists lvl'. split; simpl.
  - by rewrite Hold.
  - intros x Hx. destruct (decide (x ∈ new)) as [Hin|Hnin].
    + rewrite (Hfresh x Hin). apply Hnew' in Hin as [Hux _].
      eapply nsteps_r; [apply Hpath, Hu|done].
    + assert (x ∈ visited st) as Hxv by set_solver.
      rewrite (Hold x Hxv). by apply Hpath.
  - assert ((expanded_order st ++ [u]) ++ rest ++ new
            = (expanded_order st ++ u :: rest) ++ new) as ->.
    { by rewrite <- !app_assoc. }
    apply StronglySorted_app. split_and!.
    + intros a b Ha Hb. unfold by_level. rewrite (Hfresh b Hb).
      assert (a ∈ visited st) as Hav by (apply Hvis; set_solver).
      rewrite (Hold a Hav).
      apply elem_of_app in Ha as [Ha|[-> |Ha]%elem_of_cons].
      * specialize (Hbefore a Ha). lia.
      * lia.
      * apply (Hwin u a); set_solver.
    + apply (by_level_ext lvl); [|done].
      intros a Ha. apply Hold, Hvis. set_solver.
    + by apply (by_level_constant _ (S (lvl u))).
  - intros a b [Ha|Ha]%elem_of_app [Hb|Hb]%elem_of_app.
    + rewrite !Hold by (apply Hvis; set_solver). apply Hwin; set_solver.
    + rewrite (Hfresh b Hb), Hold by (apply Hvis; set_solver).
      specialize (Hafter a Ha). lia.
    + rewrite (Hfresh a Ha), Hold by (apply Hvis; set_solver).
      assert (lvl b ≤ S (lvl u)) by (apply Hwin; set_solver). lia.
    + rewrite (Hfresh a Ha), (Hfresh b Hb). lia.
  - intros a v [Ha| ->%list_elem_of_singleton]%elem_of_app Hav.
    + destruct (Hedges a v Ha Hav) as [Hv Hle].
      split; [set_solver|].
      rewrite !Hold by (done || apply Hvis; by left). done.
    + rewrite (Hold u Hu). destruct (decide (v ∈ visited st)) as [Hv|Hv].
      * split; [set_solver|]. rewrite (Hold v Hv).
        apply Hvis in Hv as [Hv|[-> |Hv]%elem_of_cons].
        -- specialize (Hbefore v Hv). lia.
        -- lia.
        -- apply Hwin; set_solver.
      * assert (v ∈ new) as Hin by by apply Hnew'.
        split; [set_solver|]. by rewrite (Hfresh v Hin).
Qed.

Lemma bfs_final_levels (graph : gmap string (list string))
    (start_node : string) :
  ∃ lvl, bfs_levels graph start_node lvl (bfs_final graph start_node).
Proof.
  destruct (while_frontier_rule graph (bfs_step graph)
    (bfs_step_decreases graph)
    (λ st, search_inv graph start_node st
           ∧ ∃ lvl, bfs_levels graph start_node lvl st))
    with (st := init start_node) as [[_ Hlvl] _]; [| |done].
  - intros st Hne [Hinv [lvl Hlvl]]. split.
    + eapply search_inv_expansion; [done|by apply bfs_step_expansion].
    + by eapply bfs_levels_step.
  - split; [apply search_inv_init|]. eexists. apply bfs_levels_init.
Qed.

(** When the queue is empty, the level of a node is the least number of
    edges that lead to it from the start node. *)
Lemma bfs_levels_least (graph : gmap string (list string))
    (start_node : string) (lvl : string → nat) (st : state) :
  search_inv graph start_node st → bfs_levels graph start_node lvl st →
  frontier st = [] →
  ∀ n x, nsteps (edge graph) n start_node x →
    x ∈ expanded_order st ∧ lvl x ≤ n.
Proof.
  intros [_ Hvis _ _ Hstart _ _ _ _] [Hl0 _ _ _ Hedges] Hfr.
  assert (∀ z, z ∈ visited st → z ∈ expanded_order st) as Hexp.
  { intros z [Hz|Hz]%Hvis; [done|]. rewrite Hfr in Hz.
    by apply elem_of_nil in Hz. }
  induction n as [|n IH]; intros x Hx.
  - inversion Hx; subst. split; [by apply Hexp|lia].
  - apply nsteps_inv_r in Hx as (y & Hy & Hyx).
    destruct (IH y Hy) as [Hyo Hyl].
    destruct (Hedges y x Hyo Hyx) as [Hxv Hxl].
    split; [by apply Hexp|lia].
Qed.

(** X6: breadth-first search expands the nodes in order of their distance
    from the start node: when [u] is expanded no later than [v] and [v] can
    be reached by a walk of [n] edges, [u] can be reached by a walk of at
    most [n] edges. *)
Theorem bfs_expands_by_distance (graph : gmap string (list string))
    (start_node : string) (i j : nat) (u v : string) (n : nat) :
  i ≤ j →
  (breadth_first_search graph start_node).1 !! i = Some u →
  (breadth_first_search graph start_node).1 !! j = Some v →
  nsteps (edge graph) n start_node v →
  ∃ m, m ≤ n ∧ nsteps (edge graph) m start_node u.
Proof.
  intros Hij Hu Hv Hn.
  destruct (bfs_final_levels graph start_node) as [lvl Hlvl].
  pose proof (bfs_final_inv graph start_node) as Hinv.
  pose proof (bfs_final_frontier graph start_node) as Hfr.
  destruct (bfs_levels_least graph start_node lvl _ Hinv Hlvl Hfr n v Hn)
    as [_ Hvn].
  exists (lvl u). split.
  - destruct (decide (i = j)) as [-> |Hne].
    + assert (u = v) as -> by congruence. done.
    + pose proof (lv_sorted _ _ _ _ Hlvl) as Hsorted.
      rewrite Hfr, app_nil_r in Hsorted.
      assert (by_level lvl u v) as Huv.
      { apply (StronglySorted_lookup_lt _ _ i j u v Hsorted); [lia|done..]. }
      unfold by_level in Huv. lia.
  - apply (lv_path _ _ _ _ Hlvl).
    apply (inv_visited _ _ _ Hinv). left.
    eapply list_elem_of_lookup_2, Hu.
Qed.

Lemma bfs_expands_by_distance_witness :
  ∃ m, m ≤ 2 ∧ nsteps (edge LAB1_GRAPH) m "A" "D".
Proof.
  apply (bfs_expands_by_distance LAB1_GRAPH "A" 2 3 "D" "C" 2).
  - lia.
  - unfold breadth_first_search. rewrite bfs_final_LAB1_A.
    vm_compute. reflexivity.
  - unfold breadth_first_search. rewrite bfs_final_LAB1_A.
    vm_compute. reflexivity.
  - apply (nsteps_l _ _ _ "D"); [unfold edge; compute_done|].
    apply (nsteps_l _ _ _ "C"); [unfold edge; compute_done|]. constructor.
Defined.

(** ** Which node is expanded next *)

Section search_turns.
Variable graph : gmap string (list string).
Variable start_node : string.
Variable body : state → state.
Variable render : list string → list string.
Variable body_decreases :
  ∀ st, frontier st ≠ [] → measure graph (body st) < measure graph st.
Hypothesis body_idle : ∀ st, frontier st = [] → body st = st.
Hypothesis body_expands :
  ∀ st, frontier st ≠ [] → expansion graph render st (body st).

#[local] Abbreviation final :=
  (while_frontier graph body body_decreases (init start_node)).
#[local] Abbreviation at_turn := (λ n, Nat.iter n body (init start_node)).

(** A turn that finds the frontier non-empty appends the node at its index of
    the returned order. *)
Lemma turn_expanded_order (i : nat) :
  frontier (at_turn i) ≠ [] →
  length (expanded_order (at_turn i)) = i
  ∧ expanded_order (body (at_turn i))
    = take (S i) (expanded_order final).
Proof.
  intros Hne.
  destruct (turn_trace_length graph start_node body render body_idle
              body_expands i) as [_ Hlen].
  rewrite <- (search_inv_trace_length graph start_node (at_turn i)), Hlen
    by (done || by eapply turn_inv).
  split; [done|].
  destruct (turn_has_snapshot graph start_node body render body_decreases
              body_idle body_expands i Hne) as [snap Hsnap].
  by apply (snapshot_at_turn graph start_node body render body_decreases
              body_idle body_expands) in Hsnap as (_ & _ & ->).
Qed.

(** A turn that finds the frontier empty is after the last expansion. *)
Lemma turn_after_last (i : nat) :
  frontier (at_turn i) = [] → expanded_order final !! i = None.
Proof.
  intros Hfr.
  rewrite (while_frontier_eq_iter graph body body_decreases body_idle i)
    by done.
  apply lookup_ge_None.
  rewrite <- (search_inv_trace_length graph start_node (at_turn i))
    by by eapply turn_inv.
  apply (turn_trace_length graph start_node body render body_idle
           body_expands i).
Qed.
End search_turns.

Lemma bfs_order_at_turn (graph : gmap string (list string))
    (start_node : string) (i : nat) (node : string) (queue : list string) :
  frontier (Nat.iter i (bfs_step graph) (init start_node)) = node :: queue →
  (breadth_first_search graph start_node).1 !! i = Some node.
Proof.
  intros Hfr.
  destruct (turn_expanded_order graph start_node (bfs_step graph) id
              (bfs_step_decreases graph) (bfs_step_idle graph)
              (bfs_step_expansion graph) i) as [Hlen Ho];
    [by rewrite Hfr|].
  rewrite (bfs_step_cons graph _ node queue Hfr) in Ho. simpl in Ho.
  change ((breadth_first_search graph start_node).1)
    with (expanded_order (bfs_final graph start_node)).
  unfold bfs_final.
  rewrite <- (lookup_take_lt _ (S i)), <- Ho by lia.
  by rewrite lookup_app_r, Hlen, Nat.sub_diag by lia.
Qed.

Lemma dfs_order_at_turn (graph : gmap string (list string))
    (start_node : string) (i : nat) (node : string) (stack : list string) :
  frontier (Nat.iter i (dfs_step graph) (init start_node)) = stack ++ [node] →
  (depth_first_search graph start_node).1 !! i = Some node.
Proof.
  intros Hfr.
  destruct (turn_expanded_order graph start_node (dfs_step graph) reverse
              (dfs_step_decreases graph) (dfs_step_idle graph)
              (dfs_step_expansion graph) i) as [Hlen Ho].
  { rewrite Hfr. by destruct stack. }
  rewrite (dfs_step_snoc graph _ node stack Hfr) in Ho. simpl in Ho.
  change ((depth_first_search graph start_node).1)
    with (expanded_order (dfs_final graph start_node)).
  unfold dfs_final.
  rewrite <- (lookup_take_lt _ (S i)), <- Ho by lia.
  by rewrite lookup_app_r, Hlen, Nat.sub_diag by lia.
Qed.

(** [m] is the least neighbour of [node] not visited in [st]. *)
Definition least_unvisited (graph : gmap string (list string)) (st : state)
    (node m : string) : Prop :=
  m ∈ graph_get graph node ∧ (m ∉ visited st)
  ∧ ∀ z, z ∈ graph_get graph node → z ∉ visited st → String.le m z.

Lemma ascending_head_least (new : list string) (m : string) :
  StronglySorted String.le new → m ∈ new → (∀ z, z ∈ new → String.le m z) →
  ∃ l, new = m :: l.
Proof.
  intros Hsorted Hm Hleast. destruct new as [|m' l].
  { by apply elem_of_nil in Hm. }
  apply StronglySorted_cons in Hsorted as [Hall _].
  rewrite Forall_forall in Hall. exists l. f_equal.
  apply elem_of_cons in Hm as [-> |Hm]; [done|].
  apply (anti_symm String.le); [by apply Hall|]. apply Hleast. by left.
Qed.

Lemma descending_last_least (new : list string) (m : string) :
  StronglySorted (flip String.le) new → m ∈ new →
  (∀ z, z ∈ new → String.le m z) →
  ∃ l, new = l ++ [m].
Proof.
  intros Hsorted Hm Hleast. destruct (last new) as [m'|] eqn:Hlast.
  2:{ apply last_None in Hlast. subst. by apply elem_of_nil in Hm. }
  apply last_Some in Hlast as [l ->]. exists l. do 2 f_equal.
  apply elem_of_app in Hm as [Hm| ->%list_elem_of_singleton]; [|done].
  apply StronglySorted_app in Hsorted as (Hcross & _ & _).
  apply (anti_symm String.le); [|apply Hleast; set_solver].
  apply (Hcross m m'); [done|by left].
Qed.

Lemma bfs_step_growth (graph : gmap string (list string)) (st : state)
    (node : string) (rest : list string) :
  frontier st = node :: rest →
  ∃ new,
    frontier (bfs_step graph st) = rest ++ new
    ∧ visited (bfs_step graph st) = list_to_set new ∪ visited st
    ∧ NoDup new ∧ StronglySorted String.le new
    ∧ ∀ x, x ∈ new ↔ x ∈ graph_get graph node ∧ x ∉ visited st.
Proof.
  intros Hfr. rewrite (bfs_step_cons graph st node rest Hfr).
  destruct (discover_all_spec (sorted (graph_get graph node) false)
              (visited st) rest) as (new & -> & Hnd & Hsub & Hnew).
  exists new. simpl. split_and!; [done..| |].
  - eapply sublist_StronglySorted; [done|apply sorted_ascending].
  - intros x. by rewrite Hnew, elem_of_sorted.
Qed.

Lemma dfs_step_growth (graph : gmap string (list string)) (st : state)
    (node : string) (rest : list string) :
  frontier st = rest ++ [node] →
  ∃ new,
    frontier (dfs_step graph st) = rest ++ new
    ∧ visited (dfs_step graph st) = list_to_set new ∪ visited st
    ∧ NoDup new ∧ StronglySorted (flip String.le) new
    ∧ ∀ x, x ∈ new ↔ x ∈ graph_get graph node ∧ x ∉ visited st.
Proof.
  intros Hfr. rewrite (dfs_step_snoc graph st node rest Hfr).
  destruct (discover_all_spec (sorted (graph_get graph node) true)
              (visited st) rest) as (new & -> & Hnd & Hsub & Hnew).
  exists new. simpl. split_and!; [done..| |].
  - eapply sublist_StronglySorted; [done|apply sorted_descending].
  - intros x. by rewrite Hnew, elem_of_sorted.
Qed.

(** X7: a turn of the breadth-first search appends to the queue the
    neighbours of the expanded node that are not visited yet, each once and
    in ascending order, and adds them to the visited set; a turn of the
    depth-first search pushes the same nodes in descending order. *)
Theorem frontier_growth (graph : gmap string (list string)) (st : state)
    (node : string) (rest : list string) :
  (frontier st = node :: rest →
   ∃ new,
     frontier (bfs_step graph st) = rest ++ new
     ∧ visited (bfs_step graph st) = list_to_set new ∪ visited st
     ∧ NoDup new ∧ StronglySorted String.le new
     ∧ ∀ x, x ∈ new ↔ x ∈ graph_get graph node ∧ x ∉ visited st)
  ∧ (frontier st = rest ++ [node] →
     ∃ new,
       frontier (dfs_step graph st) = rest ++ new
       ∧ visited (dfs_step graph st) = list_to_set new ∪ visited st
       ∧ NoDup new ∧ StronglySorted (flip String.le) new
       ∧ ∀ x, x ∈ new ↔ x ∈ graph_get graph node ∧ x ∉ visited st).
Proof. split; [apply bfs_step_growth|apply dfs_step_growth]. Qed.

Lemma frontier_growth_witness :
  ∃ new,
    frontier (bfs_step LAB1_GRAPH (init "A")) = [] ++ new
    ∧ visited (bfs_step LAB1_GRAPH (init "A"))
      = list_to_set new ∪ visited (init "A")
    ∧ NoDup new ∧ StronglySorted String.le new
    ∧ ∀ x, x ∈ new ↔ x ∈ graph_get LAB1_GRAPH "A" ∧ x ∉ visited (init "A").
Proof.
  exact (proj1 (frontier_growth LAB1_GRAPH (init "A") "A" []) eq_refl).
Defined.

(** X8: the depth-first search goes down before it goes sideways.  After the
    turn that expands [node], the next node expanded is the least unvisited
    neighbour of [node] when there is one; when every neighbour of [node] is
    visited already, it is the node that was under [node] on the stack, and
    the traversal is over when there is none. *)
Theorem dfs_next_node (graph : gmap string (list string))
    (start_node : string) (i : nat) (node : string) (stack : list string) :
  let st := Nat.iter i (dfs_step graph) (init start_node) in
  frontier st = stack ++ [node] →
  (depth_first_search graph start_node).1 !! i = Some node
  ∧ (∀ m, least_unvisited graph st node m →
          (depth_first_search graph start_node).1 !! S i = Some m)
  ∧ ((∀ z, z ∈ graph_get graph node → z ∈ visited st) →
     (depth_first_search graph start_node).1 !! S i = last stack).
Proof.
  intros st Hfr. split; [by eapply dfs_order_at_turn|].
  destruct (dfs_step_growth graph st node stack Hfr)
    as (new & Hfr' & _ & _ & Hsorted & Hnew).
  change (dfs_step graph st)
    with (Nat.iter (S i) (dfs_step graph) (init start_node)) in Hfr'.
  split.
  - intros m (Hm & Hmv & Hleast).
    destruct (descending_last_least new m Hsorted) as [l ->].
    { by apply Hnew. }
    { intros z [Hz Hzv]%Hnew. by apply Hleast. }
    rewrite app_assoc in Hfr'. by eapply dfs_order_at_turn.
  - intros Hall.
    assert (new = []) as ->.
    { apply elem_of_nil_inv. intros x [Hx Hxv]%Hnew. by apply Hxv, Hall. }
    rewrite app_nil_r in Hfr'.
    destruct (last stack) as [top|] eqn:Hlast.
    + apply last_Some in Hlast as [l ->]. by eapply dfs_order_at_turn.
    + apply last_None in Hlast as ->.
      by apply (turn_after_last graph start_node (dfs_step graph) reverse
                  (dfs_step_decreases graph) (dfs_step_idle graph)
                  (dfs_step_expansion graph) (S i)).
Qed.

(** X9: the breadth-first search serves the queue in order of arrival.
    After the turn that expands [node], the next node expanded is the one
    that was behind [node] in the queue; when [node] was alone in the queue,
    it is the least unvisited neighbour of [node], and the traversal is over
    when every neighbour of [node] is visited already. *)
Theorem bfs_next_node (graph : gmap string (list string))
    (start_node : string) (i : nat) (node : string) (queue : list string) :
  let st := Nat.iter i (bfs_step graph) (init start_node) in
  frontier st = node :: queue →
  (breadth_first_search graph start_node).1 !! i = Some node
  ∧ (∀ next queue', queue = next :: queue' →
       (breadth_first_search graph start_node).1 !! S i = Some next)
  ∧ (queue = [] →
     (∀ m, least_unvisited graph st node m →
           (breadth_first_search graph start_node).1 !! S i = Some m)
     ∧ ((∀ z, z ∈ graph_get graph node → z ∈ visited st) →
        (breadth_first_search graph start_node).1 !! S i = None)).
Proof.
  intros st Hfr. split; [by eapply bfs_order_at_turn|].
  destruct (bfs_step_growth graph st node queue Hfr)
    as (new & Hfr' & _ & _ & Hsorted & Hnew).
  change (bfs_step graph st)
    with (Nat.iter (S i) (bfs_step graph) (init start_node)) in Hfr'.
  split.
  - intros next queue' ->. by eapply bfs_order_at_turn.
  - intros ->. simpl in Hfr'. split.
    + intros m (Hm & Hmv & Hleast).
      destruct (ascending_head_least new m Hsorted) as [l ->].
      { by apply Hnew. }
      { intros z [Hz Hzv]%Hnew. by apply Hleast. }
      by eapply bfs_order_at_turn.
    + intros Hall.
      assert (new = []) as ->.
      { apply elem_of_nil_inv. intros x [Hx Hxv]%Hnew. by apply Hxv, Hall. }
      by apply (turn_after_last graph start_node (bfs_step graph) id
                  (bfs_step_decreases graph) (bfs_step_idle graph)
                  (bfs_step_expansion graph) (S i)).
Qed.

Lemma dfs_next_node_witness :
  (depth_first_search LAB1_GRAPH "A").1 !! 1 = Some "B".
Proof.
  apply (dfs_next_node LAB1_GRAPH "A" 0 "A" [] eq_refl).
  split_and!; [compute_done..|].
  change (graph_get LAB1_GRAPH "A") with ["D"; "B"].
  intros z Hz _. rewrite !elem_of_cons, elem_of_nil in Hz.
  destruct Hz as [-> |[-> |[]]]; compute_done.
Defined.

Lemma bfs_next_node_witness :
  (breadth_first_search LAB1_GRAPH "A").1 !! 2 = Some "D".
Proof.
  assert (frontier (Nat.iter 1 (bfs_step LAB1_GRAPH) (init "A"))
          = "B" :: ["D"]) as Hfr by (vm_compute; reflexivity).
  exact (proj1 (proj2 (bfs_next_node LAB1_GRAPH "A" 1 "B" ["D"] Hfr))
           "D" [] eq_refl).
Defined.

(** * The node universe and the diagram *)

(** [ALL_NODES = sorted(LAB1_GRAPH.keys())]. *)
Definition ALL_NODES : list string :=
  sorted (elements (dom LAB1_GRAPH)) false.

(** The fixed node positions. *)
Definition NODE_POSITIONS : gmap string string :=
  list_to_map
    [ ("A", "3, 4"); ("B", "5, 3"); ("C", "3, 2"); ("D", "1, 3");
      ("E", "7, 4"); ("F", "9, 2"); ("G", "7, 2"); ("H", "9, 4") ].

(** One call [dot.node(node, node, style=..., fillcolor=..., fontcolor=...,
    pos=..., width=..., height=...)]. *)
Record node_stmt : Type := NodeStmt {
  node_name : string;
  node_label : string;
  node_style : string;
  node_fillcolor : string;
  node_fontcolor : string;
  node_pos : string;
  node_width : string;
  node_height : string
}.

(** One call [dot.edge(u, v, color=...)]. *)
Record edge_stmt : Type := EdgeStmt {
  edge_tail : string;
  edge_head : string;
  edge_color : string
}.

(** The [graphviz.Digraph] that [to_graphviz] builds: the arguments of its
    constructor and the calls made on it, node calls first. *)
Record Digraph : Type := {
  comment : string;
  engine : string;
  nodes : list node_stmt;
  edges : list edge_stmt
}.

(** The body of [for node in get_all_nodes(graph)].  [expanded_order[-1]]
    raises [IndexError] on an empty list: the result is [None] then. *)
Definition node_statement (expanded_order : list string)
    (expanded_set : gset string) (node : string) : option node_stmt :=
  last_expanded ← last expanded_order;
  let color :=
    if decide (node = last_expanded) then "#d32f2f"
    else if decide (node ∈ expanded_set) then "#4285f4" else "gray" in
  let fontcolor :=
    if decide (node = last_expanded) then "white" else "black" in
  let pos_attr := default "0,0" (NODE_POSITIONS !! node) +:+ "!" in
  Some {| node_name := node;
          node_label := node;
          node_style := "filled";
          node_fillcolor := color;
          node_fontcolor := fontcolor;
          node_pos := pos_attr;
          node_width := "0.5";
          node_height := "0.5" |}.

(** [to_graphviz].  [None] stands for the [IndexError].  The edge calls are
    made key by key; a [gmap] does not keep the insertion order of the
    dictionary, so the order of the keys in [edges] is the one of
    [map_to_list], and only what does not depend on it is proved below. *)
Definition to_graphviz (graph : gmap string (list string))
    (expanded_order : list string) : option Digraph :=
  let expanded_set : gset string := list_to_set expanded_order in
  node_calls ← mapM (node_statement expanded_order expanded_set)
                    (get_all_nodes graph);
  let edge_calls :=
    map_to_list graph ≫= λ '(u, neighbors),
      (λ v, {| edge_tail := u; edge_head := v; edge_color := "#4285f4" |})
        <$> neighbors in
  Some {| comment := "Graph Traversal";
          engine := "neato";
          nodes := node_calls;
          edges := edge_calls |}.

(** X10: [get_all_nodes] returns the keys of the graph and the nodes of its
    adjacency lists, each once, in ascending order. *)
Theorem get_all_nodes_spec (graph : gmap string (list string)) :
  (∀ x, x ∈ get_all_nodes graph
        ↔ is_Some (graph !! x) ∨ ∃ k l, graph !! k = Some l ∧ x ∈ l)
  ∧ NoDup (get_all_nodes graph)
  ∧ StronglySorted String.le (get_all_nodes graph).
Proof.
  split_and!.
  - intros x. by rewrite elem_of_get_all_nodes, elem_of_node_set.
  - unfold get_all_nodes. rewrite sorted_Permutation. apply NoDup_elements.
  - apply sorted_ascending.
Qed.

(** X11: on a graph whose adjacency lists hold only keys, [get_all_nodes]
    returns the sorted keys, the way [ALL_NODES] is computed. *)
Theorem get_all_nodes_keys (graph : gmap string (list string)) :
  map_Forall (λ _ neighbors, Forall (λ v, v ∈ dom graph) neighbors) graph →
  get_all_nodes graph = sorted (elements (dom graph)) false.
Proof.
  intros Hclosed. unfold get_all_nodes. do 2 f_equal.
  apply set_eq. intros x. rewrite elem_of_node_set, elem_of_dom.
  split; [|by left]. intros [Hx|(k & l & Hk & Hx)]; [done|].
  specialize (Hclosed k l Hk). rewrite Forall_forall in Hclosed.
  by apply elem_of_dom, Hclosed.
Qed.

Lemma get_all_nodes_keys_witness : get_all_nodes LAB1_GRAPH = ALL_NODES.
Proof. apply get_all_nodes_keys. compute_done. Defined.

Lemma node_statement_Some (expanded_order : list string)
    (expanded_set : gset string) (node last_expanded : string) :
  last expanded_order = Some last_expanded →
  node_statement expanded_order expanded_set node
  = Some {| node_name := node;
            node_label := node;
            node_style := "filled";
            node_fillcolor :=
              if decide (node = last_expanded) then "#d32f2f"
              else if decide (node ∈ expanded_set) then "#4285f4"
                   else "gray";
            node_fontcolor :=
              if decide (node = last_expanded) then "white" else "black";
            node_pos := default "0,0" (NODE_POSITIONS !! node) +:+ "!";
            node_width := "0.5";
            node_height := "0.5" |}.
Proof. intros Hlast. unfold node_statement. by rewrite Hlast. Qed.

Lemma node_statement_name (expanded_order : list string)
    (expanded_set : gset string) (node : string) (stmt : node_stmt) :
  node_statement expanded_order expanded_set node = Some stmt →
  node_name stmt = node.
Proof.
  unfold node_statement. destruct (last expanded_order); [|done].
  simpl. by intros [= <-].
Qed.

Lemma mapM_Some_elem_of {A B} (f : A → option B) (l : list A) (k : list B)
    (y : B) :
  mapM f l = Some k → y ∈ k → ∃ x, x ∈ l ∧ f x = Some y.
Proof.
  intros Hk%mapM_Some_1 Hy. induction Hk as [|x y' l k Hxy Hk IH].
  - by apply elem_of_nil in Hy.
  - apply elem_of_cons in Hy as [-> |Hy].
    + exists x. split; [by left|done].
    + destruct (IH Hy) as (x' & Hx' & Hfx'). exists x'. split; [by right|done].
Qed.

Lemma to_graphviz_Some (graph : gmap string (list string))
    (expanded_order : list string) (d : Digraph) :
  to_graphviz graph expanded_order = Some d →
  mapM (node_statement expanded_order (list_to_set expanded_order))
       (get_all_nodes graph) = Some (nodes d)
  ∧ edges d
    = map_to_list graph ≫= λ '(u, neighbors),
        (λ v, {| edge_tail := u; edge_head := v; edge_color := "#4285f4" |})
          <$> neighbors.
Proof.
  unfold to_graphviz. simpl.
  destruct (mapM _ (get_all_nodes graph)) as [k|]; [|done].
  simpl. by intros [= <-].
Qed.

Lemma to_graphviz_nonempty (graph : gmap string (list string))
    (expanded_order : list string) :
  expanded_order ≠ [] → is_Some (to_graphviz graph expanded_order).
Proof.
  intros Hne. unfold to_graphviz. simpl.
  destruct (mapM _ (get_all_nodes graph)) as [k|] eqn:Hk; [by eexists|].
  apply mapM_None_1, Exists_exists in Hk as (x & Hx & Hnone).
  unfold node_statement in Hnone.
  destruct (last expanded_order) eqn:Hlast; [done|].
  by apply last_None in Hlast.
Qed.

Lemma to_graphviz_names (graph : gmap string (list string))
    (expanded_order : list string) (d : Digraph) :
  to_graphviz graph expanded_order = Some d →
  node_name <$> nodes d = get_all_nodes graph.
Proof.
  intros [Hnodes _]%to_graphviz_Some.
  eapply mapM_fmap_Some_inv; [done|].
  intros x y. apply node_statement_name.
Qed.

(** X12: [to_graphviz] fails, with the [IndexError] of
    [expanded_order[-1]], exactly when the expansion order is empty and the
    graph has a node. *)
Theorem to_graphviz_fails (graph : gmap string (list string))
    (expanded_order : list string) :
  to_graphviz graph expanded_order = None
  ↔ expanded_order = [] ∧ get_all_nodes graph ≠ [].
Proof.
  unfold to_graphviz. simpl.
  destruct (mapM _ (get_all_nodes graph)) as [k|] eqn:Hk; simpl.
  - split; [done|]. intros [-> Hne].
    destruct (get_all_nodes graph) as [|x l]; [done|]. done.
  - split; [|done]. intros _. apply mapM_None_1 in Hk.
    apply Exists_exists in Hk as (x & Hx & Hnone).
    unfold node_statement in Hnone.
    destruct (last expanded_order) eqn:Hlast; [done|].
    apply last_None in Hlast. split; [done|].
    intros Hnil. rewrite Hnil in Hx. by apply elem_of_nil in Hx.
Qed.

(** X13: the diagram has one node statement for each node of
    [get_all_nodes], in that order; a node is labelled with its own name and
    pinned at its entry of [NODE_POSITIONS], or at "0,0" when it has none. *)
Theorem to_graphviz_nodes (graph : gmap string (list string))
    (expanded_order : list string) (d : Digraph) :
  to_graphviz graph expanded_order = Some d →
  node_name <$> nodes d = get_all_nodes graph
  ∧ ∀ stmt, stmt ∈ nodes d →
      node_label stmt = node_name stmt
      ∧ node_pos stmt
        = default "0,0" (NODE_POSITIONS !! node_name stmt) +:+ "!".
Proof.
  intros Hd. split; [by eapply to_graphviz_names|].
  apply to_graphviz_Some in Hd as [Hnodes _]. intros stmt Hstmt.
  destruct (mapM_Some_elem_of _ _ _ stmt Hnodes Hstmt) as (x & _ & Hx).
  unfold node_statement in Hx.
  destruct (last expanded_order); [|done]. simpl in Hx.
  by injection Hx as <-.
Qed.

Lemma to_graphviz_nodes_witness :
  ∃ d, to_graphviz LAB1_GRAPH ["A"] = Some d
       ∧ node_name <$> nodes d = get_all_nodes LAB1_GRAPH.
Proof.
  destruct (to_graphviz_nonempty LAB1_GRAPH ["A"]) as [d Hd]; [done|].
  exists d. split; [done|].
  by apply (to_graphviz_nodes LAB1_GRAPH ["A"] d).
Defined.

(** X14: the colours of the diagram.  The node expanded last is red with a
    white label; the other expanded nodes are blue and the nodes not
    expanded are gray, both with a black label. *)
Theorem to_graphviz_colors (graph : gmap string (list string))
    (expanded_order : list string) (d : Digraph) (last_expanded : string)
    (stmt : node_stmt) :
  to_graphviz graph expanded_order = Some d →
  last expanded_order = Some last_expanded →
  stmt ∈ nodes d →
  (node_name stmt = last_expanded →
     node_fillcolor stmt = "#d32f2f" ∧ node_fontcolor stmt = "white")
  ∧ (node_name stmt ≠ last_expanded → node_name stmt ∈ expanded_order →
       node_fillcolor stmt = "#4285f4" ∧ node_fontcolor stmt = "black")
  ∧ (node_name stmt ∉ expanded_order →
       node_fillcolor stmt = "gray" ∧ node_fontcolor stmt = "black").
Proof.
  intros [Hnodes _]%to_graphviz_Some Hlast Hstmt.
  destruct (mapM_Some_elem_of _ _ _ stmt Hnodes Hstmt) as (x & _ & Hx).
  rewrite (node_statement_Some _ _ x last_expanded Hlast) in Hx.
  injection Hx as <-. simpl.
  assert (last_expanded ∈ expanded_order) as Hin.
  { by apply last_Some_elem_of. }
  split_and!.
  - intros ->. by rewrite !decide_True.
  - intros Hne Hx. repeat case_decide; try done.
    by rewrite elem_of_list_to_set in *.
  - intros Hx. repeat case_decide; subst; try done.
    by rewrite elem_of_list_to_set in *.
Qed.

Lemma to_graphviz_colors_witness :
  ∃ d stmt,
    to_graphviz LAB1_GRAPH ["A"; "B"] = Some d
    ∧ stmt ∈ nodes d ∧ node_name stmt = "B"
    ∧ node_fillcolor stmt = "#d32f2f" ∧ node_fontcolor stmt = "white".
Proof.
  destruct (to_graphviz_nonempty LAB1_GRAPH ["A"; "B"]) as [d Hd]; [done|].
  assert ("B" ∈ node_name <$> nodes d) as Hin.
  { rewrite (to_graphviz_names LAB1_GRAPH ["A"; "B"] d Hd). compute_done. }
  apply list_elem_of_fmap in Hin as (stmt & Hname & Hstmt).
  exists d, stmt. split_and!; [done|done|done|..];
    by apply (to_graphviz_colors LAB1_GRAPH ["A"; "B"] d "B" stmt).
Defined.

(** A diagram drawn from an expansion order that holds the nodes reachable
    from the start node. *)
Lemma diagram_of_reachable (graph : gmap string (list string))
    (start_node : string) (order : list string) :
  order ≠ [] → (∀ x, x ∈ order ↔ reachable graph start_node x) →
  ∃ d last_expanded,
    to_graphviz graph order = Some d
    ∧ last order = Some last_expanded
    ∧ (∀ stmt, stmt ∈ nodes d →
         node_fillcolor stmt = "gray"
         ↔ ¬ reachable graph start_node (node_name stmt))
    ∧ (start_node ∈ get_all_nodes graph →
       ∃ stmt, stmt ∈ nodes d ∧ node_name stmt = last_expanded
               ∧ node_fillcolor stmt = "#d32f2f").
Proof.
  intros Hne Hreach.
  destruct (to_graphviz_nonempty graph order Hne) as [d Hd].
  destruct (last order) as [t|] eqn:Hlast.
  2:{ by apply last_None in Hlast. }
  assert (t ∈ order) as Ht by by apply last_Some_elem_of.
  exists d, t. split_and!; [done..| |].
  - intros stmt Hstmt. apply to_graphviz_Some in Hd as [Hnodes _].
    destruct (mapM_Some_elem_of _ _ _ stmt Hnodes Hstmt) as (x & _ & Hx).
    rewrite (node_statement_Some _ _ x t Hlast) in Hx.
    injection Hx as <-. simpl. rewrite <- Hreach.
    repeat case_decide; subst; rewrite ?elem_of_list_to_set in *;
      split; done.
  - intros Hs.
    assert (t ∈ node_name <$> nodes d) as Hin.
    { rewrite (to_graphviz_names graph order d Hd).
      apply Hreach, reachable_node_set in Ht as [-> |Ht]; done. }
    apply list_elem_of_fmap in Hin as (stmt & Hname & Hstmt).
    exists stmt. split_and!; [done..|].
    apply to_graphviz_Some in Hd as [Hnodes _].
    destruct (mapM_Some_elem_of _ _ _ stmt Hnodes Hstmt) as (x & _ & Hx).
    rewrite (node_statement_Some _ _ x t Hlast) in Hx.
    injection Hx as <-. simpl in *. by rewrite decide_True.
Qed.

(** X15: [to_graphviz] does not fail on the expansion order of a traversal.
    In the diagram it draws, the gray nodes are the nodes that cannot be
    reached from the start node, and when the start node is a node of the
    graph, the node expanded last is drawn in red. *)
Theorem traversal_diagram (graph : gmap string (list string))
    (start_node : string) :
  (∃ d last_expanded,
     to_graphviz graph (breadth_first_search graph start_node).1 = Some d
     ∧ last (breadth_first_search graph start_node).1 = Some last_expanded
     ∧ (∀ stmt, stmt ∈ nodes d →
          node_fillcolor stmt = "gray"
          ↔ ¬ reachable graph start_node (node_name stmt))
     ∧ (start_node ∈ get_all_nodes graph →
        ∃ stmt, stmt ∈ nodes d ∧ node_name stmt = last_expanded
                ∧ node_fillcolor stmt = "#d32f2f"))
  ∧ (∃ d last_expanded,
       to_graphviz graph (depth_first_search graph start_node).1 = Some d
       ∧ last (depth_first_search graph start_node).1 = Some last_expanded
       ∧ (∀ stmt, stmt ∈ nodes d →
            node_fillcolor stmt = "gray"
            ↔ ¬ reachable graph start_node (node_name stmt))
       ∧ (start_node ∈ get_all_nodes graph →
          ∃ stmt, stmt ∈ nodes d ∧ node_name stmt = last_expanded
                  ∧ node_fillcolor stmt = "#d32f2f")).
Proof.
  split; apply diagram_of_reachable.
  - intros Hnil.
    pose proof (inv_start _ _ _ (bfs_final_inv graph start_node)) as Hs.
    apply (inv_visited _ _ _ (bfs_final_inv graph start_node)) in Hs.
    rewrite bfs_final_frontier in Hs.
    change (expanded_order (bfs_final graph start_node) = []) in Hnil.
    rewrite Hnil in Hs. set_solver.
  - apply search_inv_final;
      [apply bfs_final_inv|apply bfs_final_frontier].
  - intros Hnil.
    pose proof (inv_start _ _ _ (dfs_final_inv graph start_node)) as Hs.
    apply (inv_visited _ _ _ (dfs_final_inv graph start_node)) in Hs.
    rewrite dfs_final_frontier in Hs.
    change (expanded_order (dfs_final graph start_node) = []) in Hnil.
    rewrite Hnil in Hs. set_solver.
  - apply search_inv_final;
      [apply dfs_final_inv|apply dfs_final_frontier].
Qed.

Lemma traversal_diagram_witness :
  ∃ d, to_graphviz LAB1_GRAPH (breadth_first_search LAB1_GRAPH "A").1 = Some d
       ∧ ∃ stmt, stmt ∈ nodes d ∧ node_fillcolor stmt = "#d32f2f".
Proof.
  destruct (proj1 (traversal_diagram LAB1_GRAPH "A"))
    as (d & t & Hd & _ & _ & Hred).
  exists d. split; [exact Hd|].
  destruct Hred as (stmt & Hstmt & _ & Hcolor); [compute_done|].
  exists stmt. split; [exact Hstmt|exact Hcolor].
Defined.

(** X16: the diagram has an edge statement from [u] to [v] exactly when [v]
    is in the adjacency list of [u], and every edge statement is blue. *)
Theorem to_graphviz_edges (graph : gmap string (list string))
    (expanded_order : list string) (d : Digraph) (e : edge_stmt) :
  to_graphviz graph expanded_order = Some d →
  e ∈ edges d
  ↔ edge graph (edge_tail e) (edge_head e) ∧ edge_color e = "#4285f4".
Proof.
  intros [_ ->]%to_graphviz_Some. rewrite list_elem_of_bind.
  unfold edge, graph_get. split.
  - intros ([u l] & He & Hul). apply elem_of_map_to_list in Hul.
    apply list_elem_of_fmap in He as (v & -> & Hv). simpl.
    by rewrite Hul.
  - destruct e as [u v c]. simpl. intros [Hv ->].
    destruct (graph !! u) as [l|] eqn:Hu; simpl in Hv.
    2:{ by apply elem_of_nil in Hv. }
    exists (u, l). split; [|by apply elem_of_map_to_list].
    apply list_elem_of_fmap. by exists v.
Qed.

Lemma to_graphviz_edges_witness :
  ∃ d, to_graphviz LAB1_GRAPH ["A"] = Some d
       ∧ {| edge_tail := "H"; edge_head := "G"; edge_color := "#4285f4" |}
         ∈ edges d.
Proof.
  destruct (to_graphviz_nonempty LAB1_GRAPH ["A"]) as [d Hd]; [done|].
  exists d. split; [done|].
  apply (to_graphviz_edges LAB1_GRAPH ["A"] d _ Hd). simpl.
  split; [|done]. unfold edge. compute_done.
Defined.

(** * The process table *)

(** One row of [process_data]: the dictionary with keys ["Step"],
    ["Expanded Node"] and ["Process Path"]. *)
Record process_row : Type := ProcessRow {
  Step : nat;
  Expanded_Node : string;
  Process_Path : string
}.

(** [[{"Step": i + 1, "Expanded Node": step['expanded'],
      "Process Path": step['process_path']}
     for i, step in enumerate(trace_data)]]. *)
Definition process_data (trace_data : list Snapshot.t) : list process_row :=
  imap (λ i step, {| Step := i + 1;
                     Expanded_Node := Snapshot.expanded step;
                     Process_Path := Snapshot.process_path step |})
       trace_data.

Lemma process_data_of_trace (graph : gmap string (list string))
    (start_node : string) (st : state) (i : nat) (row : process_row) :
  search_inv graph start_node st →
  process_data (trace st) !! i = Some row →
  Step row = i + 1
  ∧ expanded_order st !! i = Some (Expanded_Node row)
  ∧ Process_Path row = join_path (take (S i) (expanded_order st)).
Proof.
  intros Hinv Hrow. unfold process_data in Hrow.
  rewrite list_lookup_imap in Hrow.
  destruct (trace st !! i) as [snap|] eqn:Hsnap; [|done].
  simpl in Hrow. injection Hrow as <-. simpl. split_and!; [done| |].
  - rewrite <- (inv_trace_expanded _ _ _ Hinv), list_lookup_fmap.
    by rewrite Hsnap.
  - by apply (inv_trace_path _ _ _ Hinv).
Qed.

(** X17: the process table built from the trace of a traversal has one row
    per expanded node; row [i] is numbered [i + 1], names the node at index
    [i] of the expansion order and shows the first [i + 1] nodes of the
    expansion order joined by arrows. *)
Theorem process_data_rows (graph : gmap string (list string))
    (start_node : string) :
  (length (process_data (breadth_first_search graph start_node).2)
   = length (breadth_first_search graph start_node).1
   ∧ ∀ i row,
       process_data (breadth_first_search graph start_node).2 !! i = Some row →
       Step row = i + 1
       ∧ (breadth_first_search graph start_node).1 !! i
         = Some (Expanded_Node row)
       ∧ Process_Path row
         = join_path (take (S i) (breadth_first_search graph start_node).1))
  ∧ (length (process_data (depth_first_search graph start_node).2)
     = length (depth_first_search graph start_node).1
     ∧ ∀ i row,
         process_data (depth_first_search graph start_node).2 !! i
         = Some row →
         Step row = i + 1
         ∧ (depth_first_search graph start_node).1 !! i
           = Some (Expanded_Node row)
         ∧ Process_Path row
           = join_path (take (S i) (depth_first_search graph start_node).1)).
Proof.
  pose proof (bfs_final_inv graph start_node) as Hb.
  pose proof (dfs_final_inv graph start_node) as Hd.
  split_and!.
  - unfold process_data. rewrite length_imap.
    apply (search_inv_trace_length _ _ _ Hb).
  - intros i row. by apply (process_data_of_trace graph start_node).
  - unfold process_data. rewrite length_imap.
    apply (search_inv_trace_length _ _ _ Hd).
  - intros i row. by apply (process_data_of_trace graph start_node).
Qed.

Lemma process_data_rows_witness :
  (breadth_first_search LAB1_GRAPH "A").1 !! 2 = Some "D"
  ∧ join_path (take 3 (breadth_first_search LAB1_GRAPH "A").1) = "A → B → D".
Proof.
  destruct (proj2 (proj1 (process_data_rows LAB1_GRAPH "A")) 2
              {| Step := 3; Expanded_Node := "D";
                 Process_Path := "A → B → D" |}) as (_ & Hnode & Hpath).
  - rewrite bfs_trace_LAB1_A. vm_compute. reflexivity.
  - split; [exact Hnode|]. symmetry. exact Hpath.
Defined.

(** * The traversals follow the edges *)

(** Every node waiting in the frontier, and every expanded node, is the start
    node or a neighbour of a node expanded before it. *)
Definition parent_inv (graph : gmap string (list string))
    (start_node : string) (st : state) : Prop :=
  (∀ x, x ∈ frontier st →
     x = start_node ∨ ∃ u, u ∈ expanded_order st ∧ edge graph u x)
  ∧ (∀ j x, expanded_order st !! j = Some x →
       x = start_node
       ∨ ∃ i u, i < j ∧ expanded_order st !! i = Some u ∧ edge graph u x).

Lemma parent_inv_init (graph : gmap string (list string))
    (start_node : string) :
  parent_inv graph start_node (init start_node).
Proof.
  split; simpl.
  - intros x ->%list_elem_of_singleton. by left.
  - intros j x Hx. by rewrite lookup_nil in Hx.
Qed.

Lemma parent_inv_expansion (graph : gmap string (list string))
    (start_node : string) (render : list string → list string)
    (st st' : state) :
  parent_inv graph start_node st → expansion graph render st st' →
  parent_inv graph start_node st'.
Proof.
  intros [Hfr Hord] (node & rest & new & Hperm & -> & _ & Hnew).
  split; simpl.
  - intros x [Hx|Hx]%elem_of_app.
    + destruct (Hfr x) as [-> |(u & Hu & Hux)]; [rewrite Hperm; by right| |].
      * by left.
      * right. exists u. split; [set_solver|done].
    + right. exists node. split; [set_solver|]. by apply Hnew in Hx as [? _].
  - intros j x [Hx|[Hj Hx]]%lookup_app_Some.
    + destruct (Hord j x Hx) as [-> |(i & u & Hij & Hu & Hux)]; [by left|].
      right. exists i, u. split_and!; [done| |done].
      by apply lookup_app_l_Some.
    + apply list_lookup_singleton_Some in Hx as [Hj' <-].
      destruct (Hfr node) as [-> |(u & Hu & Hux)];
        [rewrite Hperm; by left|by left|].
      right. apply list_elem_of_lookup in Hu as [i Hi].
      exists i, u. split_and!; [|by apply lookup_app_l_Some|done].
      apply lookup_lt_Some in Hi. lia.
Qed.

(** X18: in the expansion order of either traversal, every node other than
    the start node is a neighbour of a node expanded earlier. *)
Theorem expanded_from_earlier (graph : gmap string (list string))
    (start_node : string) :
  (∀ j x, (breadth_first_search graph start_node).1 !! j = Some x →
     x = start_node
     ∨ ∃ i u, i < j
              ∧ (breadth_first_search graph start_node).1 !! i = Some u
              ∧ edge graph u x)
  ∧ (∀ j x, (depth_first_search graph start_node).1 !! j = Some x →
       x = start_node
       ∨ ∃ i u, i < j
                ∧ (depth_first_search graph start_node).1 !! i = Some u
                ∧ edge graph u x).
Proof.
  split.
  - apply (while_frontier_rule graph (bfs_step graph)
             (bfs_step_decreases graph) (parent_inv graph start_node)).
    + intros st Hne Hst. eapply parent_inv_expansion; [done|].
      by apply bfs_step_expansion.
    + apply parent_inv_init.
  - apply (while_frontier_rule graph (dfs_step graph)
             (dfs_step_decreases graph) (parent_inv graph start_node)).
    + intros st Hne Hst. eapply parent_inv_expansion; [done|].
      by apply dfs_step_expansion.
    + apply parent_inv_init.
Qed.

Lemma expanded_from_earlier_witness :
  "H" = "A"
  ∨ ∃ i u, i < 4 ∧ (depth_first_search LAB1_GRAPH "A").1 !! i = Some u
           ∧ edge LAB1_GRAPH u "H".
Proof.
  apply (proj2 (expanded_from_earlier LAB1_GRAPH "A") 4 "H").
  unfold depth_first_search. rewrite dfs_final_LAB1_A.
  vm_compute. reflexivity.
Defined.
